(** * The metastore updater: a shallow embedding of [Updater.Update]

    The development follows the Go source of the metastore package: the
    [Updater] struct, its constructor [NewUpdater], the guarded one-time
    builder initialisation [initBuilder], the per-window optimistic
    get-and-replace loop of [Update] and the replay of existing content in
    [readFromExisting].

    Collaborators that the package only calls (the columnar builder, the
    object decoder, the bucket, the backoff helper, the label library and
    the window iterator) are described at their interface. *)

From Stdlib Require Import ZArith String DecimalString Decimal Lia.
From stdpp Require Import gmap strings list sorting.

Local Open Scope string_scope.

(** ** Errors and instants *)

(** Go [error] values.  [Wrap cause msg] is [errors.Wrap(cause, msg)]. *)
Inductive error : Type :=
| Err (msg : string)
| Wrap (cause : error) (msg : string)
| io_EOF
| context_Canceled
| ErrStale.

(** [err != nil && err != io.EOF] *)
Definition is_failure (err : option error) : option error :=
  match err with
  | Some io_EOF => None
  | other => other
  end.

Inductive result (A : Type) : Type :=
| Ok (a : A)
| Fail (err : error).
Arguments Ok {A} a.
Arguments Fail {A} err.

(** A [time.Time] instant, as the number of nanoseconds since the Unix epoch. *)
Definition time_Time : Type := Z.

Definition wrap64 (z : Z) : Z := ((z + 2 ^ 63) mod 2 ^ 64 - 2 ^ 63)%Z.

(** [t.UnixNano()]: an int64. *)
Definition UnixNano (t : time_Time) : Z := wrap64 t.

(** [strconv.FormatInt(i, 10)] *)
Definition FormatInt (i : Z) : string := NilZero.string_of_int (Z.to_int i).

(** ** Records *)

Definition labelNameStart : string := "__start__".
Definition labelNameEnd : string := "__end__".
Definition labelNamePath : string := "__path__".

(** [labels.Label] *)
Record Label : Type := { Name : string; Value : string }.

(** [logproto.Entry], reduced to the field the updater sets. *)
Record Entry : Type := { Line : string }.

(** [logproto.Stream] *)
Record logproto_Stream : Type := { Labels : string; Entries : list Entry }.

(** Modelled from the spec: a decoded registration record ([streams.Stream],
    whose package is not part of the sources at hand).  The replayer uses one
    thing of it, [stream.Labels.String()]; the record holds that text, which
    the spec requires to come back verbatim. *)
Record streams_Stream : Type := { stream_Labels_String : string }.

(** What a record reader returns over one or several reads: rows, and the
    error (nil, the io-end sentinel or another) that comes with the last of
    them.  A run without rows is one read that returns no rows. *)
Abbreviation Run := (list streams_Stream * option error)%type.

(** Modelled from the spec: the structural sections of a decoded metastore
    object (package dataobj, not part of the sources at hand).  A section is a
    registration-record section or something else.  A registration-record
    section fails to open, or opens and is then given by what its record
    reader returns, read after read, as a sequence of runs: any count of rows
    with any error, among them a read of no rows with an error that is not
    the io-end sentinel. *)
Inductive dataobj_Section : Type :=
| StreamsSection (runs : list Run)
| DamagedStreamsSection (err : error)
| OtherSection.

(** The content of a byte buffer or of a stored blob: nothing, an encoded
    object, or bytes that [dataobj.FromReaderAt] rejects. *)
Inductive Bytes : Type :=
| NoBytes
| Encoded (sections : list dataobj_Section)
| Garbage (err : error).

(** [buf.Len() > 0] *)
Definition nonempty (b : Bytes) : bool :=
  match b with
  | NoBytes => false
  | _ => true
  end.

(** [dataobj.FromReaderAt] *)
Definition FromReaderAt (b : Bytes) : result (list dataobj_Section) :=
  match b with
  | Encoded sections => Ok sections
  | Garbage err => Fail err
  | NoBytes => Fail (Err "empty object")
  end.

(** The rows of a sequence of runs. *)
Fixpoint rowsOfRuns (runs : list Run) : list streams_Stream :=
  match runs with
  | [] => []
  | (rows, _) :: rest => rows ++ rowsOfRuns rest
  end.

(** The registration rows an object holds, section by section. *)
Fixpoint rowsOf (sections : list dataobj_Section) : list streams_Stream :=
  match sections with
  | [] => []
  | StreamsSection runs :: rest => rowsOfRuns runs ++ rowsOf rest
  | _ :: rest => rowsOf rest
  end.

Definition rowsOfBytes (b : Bytes) : list streams_Stream :=
  match b with
  | Encoded sections => rowsOf sections
  | _ => []
  end.

(** The rows the reads of a section deliver before one of them returns no
    rows: the rows of the runs up to the first run without rows. *)
Fixpoint deliveredOfRuns (runs : list Run) : list streams_Stream :=
  match runs with
  | [] => []
  | ([], _) :: _ => []
  | (rows, _) :: rest => rows ++ deliveredOfRuns rest
  end.

(** The same for the registration-record sections of an object. *)
Fixpoint deliveredOf (sections : list dataobj_Section) : list streams_Stream :=
  match sections with
  | [] => []
  | StreamsSection runs :: rest => deliveredOfRuns runs ++ deliveredOf rest
  | _ :: rest => deliveredOf rest
  end.

Definition deliveredOfBytes (b : Bytes) : list streams_Stream :=
  match b with
  | Encoded sections => deliveredOf sections
  | _ => []
  end.

(** The object with one registration-record section that holds [rows] and
    reads back without error, and one section of another kind. *)
Definition objectOf (rows : list streams_Stream) : Bytes :=
  Encoded [StreamsSection [(rows, None)]; OtherSection].

(** ** The builder *)

(** [logsobj.BuilderConfig] *)
Record BuilderConfig : Type := {
  TargetObjectSize : Z;
  TargetPageSize : Z;
  BufferSize : Z;
  TargetSectionSize : Z;
  SectionStripeMergeLimit : Z
}.

Definition metastoreBuilderCfg : BuilderConfig := {|
  TargetObjectSize := 32 * 1024 * 1024;
  TargetPageSize := 4 * 1024 * 1024;
  BufferSize := 32 * 1024 * 1024;
  TargetSectionSize := 4 * 1024 * 1024;
  SectionStripeMergeLimit := 2
|}.

(** Modelled from the spec: the builder collaborator ([logsobj.Builder], not
    part of the sources at hand): a stateful encoder that accepts records via
    append, produces a byte stream via flush and supports a reset to the empty
    state.  Its state is the sequence of records appended since the last
    reset. *)
Record Builder : Type := { appended : list logproto_Stream }.

Definition emptyBuilder : Builder := {| appended := [] |}.

(** A window: the tenant and the start of its time bucket. *)
Abbreviation Window := (string * Z)%type.

(** What the updater's collaborators decide on their own. *)
Class Collaborators : Type := {
  (** the fixed bucket size of the window planner, in nanoseconds *)
  metastoreWindowSize : Z;
  (** [logsobj.NewBuilder] *)
  logsobj_NewBuilder : BuilderConfig -> result Builder;
  (** the builder's capacity and validation check on append *)
  Append_check : Builder -> logproto_Stream -> option error;
  (** the builder's failure on flush *)
  Flush_check : Builder -> option error;
  (** [labels.New(ls...).String()]: the text of a label set *)
  labels_String : list Label -> string
}.

Section Metastore.

Context `{Collaborators}.

(** [b.Append(stream)] *)
Definition Builder_Append (b : Builder) (stream : logproto_Stream)
  : option error * Builder :=
  match Append_check b stream with
  | Some err => (Some err, b)
  | None => (None, {| appended := appended b ++ [stream] |})
  end.

(** [b.Reset()] *)
Definition Builder_Reset (b : Builder) : Builder := emptyBuilder.

(** The row a stored record decodes to. *)
Definition rowOfStream (s : logproto_Stream) : streams_Stream :=
  {| stream_Labels_String := Labels s |}.

(** [b.Flush(buf)]: the encoded object has one registration-record section
    with a row per appended record, in order, and one section of another
    kind for the (empty) payloads. *)
Definition Builder_Flush (b : Builder) : result Bytes :=
  match Flush_check b with
  | Some err => Fail err
  | None => Ok (objectOf (map rowOfStream (appended b)))
  end.

(** ** The record encoder (Update, the [labels.New] and [Append] lines) *)

Definition registrationLabels (dataobjPath : string) (minTimestamp maxTimestamp : time_Time)
  : list Label :=
  [ {| Name := labelNameStart; Value := FormatInt (UnixNano minTimestamp) |};
    {| Name := labelNameEnd; Value := FormatInt (UnixNano maxTimestamp) |};
    {| Name := labelNamePath; Value := dataobjPath |} ].

Definition registrationStream (dataobjPath : string) (minTimestamp maxTimestamp : time_Time)
  : logproto_Stream :=
  {| Labels := labels_String (registrationLabels dataobjPath minTimestamp maxTimestamp);
     Entries := [ {| Line := "" |} ] |}.

(** ** The existing-content replayer *)

(** Modelled from the spec: the record reader of a registration-record
    section ([streams.RowReader], not part of the sources at hand):
    [read(batchBuffer)] returns a count of rows, at most as many as the buffer
    holds, and an error; on exhaustion no rows and the io-end sentinel.  The
    reader's state is the runs it has yet to return; a run longer than the
    buffer takes several reads, its error coming with the last of them. *)
Record RowReader : Type := { pending : list Run }.

Definition RowReader_Read (r : RowReader) (size : nat)
  : list streams_Stream * option error * RowReader :=
  match pending r with
  | [] => ([], Some io_EOF, r)
  | (rows, err) :: rest =>
      match drop size rows with
      | [] => (rows, err, {| pending := rest |})
      | more => (take size rows, None, {| pending := (more, err) :: rest |})
      end
  end.

(** The inner [for _, stream := range buf[:n]] of readFromExisting. *)
Fixpoint appendStreams (batch : list streams_Stream) (b : Builder) : option error * Builder :=
  match batch with
  | [] => (None, b)
  | stream :: rest =>
      match Builder_Append b {| Labels := stream_Labels_String stream;
                                Entries := [ {| Line := "" |} ] |} with
      | (Some err, b') => (Some (Wrap err "appending streams"), b')
      | (None, b') => appendStreams rest b'
      end
  end.

(** [buf := make([]streams.Stream, 100)] *)
Definition batchSize : nat := 100.

(** The [for n, err := streamsReader.Read(ctx, buf); n > 0; ...] loop, with a
    buffer of [batchSize] rows: the condition [n > 0] is tested first, the
    error only in the body.  Every round with [n > 0] consumes a row, so the
    number of pending rows bounds the rounds. *)
Fixpoint readRows (rounds : nat) (reader : RowReader) (b : Builder) : option error * Builder :=
  let '(batch, err, reader') := RowReader_Read reader batchSize in
  match batch with
  | [] => (None, b)
  | _ :: _ =>
      match is_failure err with
      | Some e => (Some (Wrap e "reading streams"), b)
      | None =>
          match appendStreams batch b with
          | (Some e, b') => (Some e, b')
          | (None, b') =>
              match rounds with
              | O => (None, b')
              | S rounds' => readRows rounds' reader' b'
              end
          end
      end
  end.

(** [readFromExisting]: the sections of the object in order, skipping those
    that [streams.CheckSection] rejects. *)
Fixpoint readFromExisting (sections : list dataobj_Section) (b : Builder)
  : option error * Builder :=
  match sections with
  | [] => (None, b)
  | OtherSection :: rest => readFromExisting rest b
  | DamagedStreamsSection err :: _ => (Some (Wrap err "opening section"), b)
  | StreamsSection runs :: rest =>
      match readRows (length (rowsOfRuns runs)) {| pending := runs |} b with
      | (Some e, b') => (Some e, b')
      | (None, b') => readFromExisting rest b'
      end
  end.

(** ** The backoff helper *)

(** [backoff.Config] *)
Record backoff_Config : Type := {
  MinBackoff : Z;
  MaxBackoff : Z;
  MaxRetries : nat
}.

(** Modelled from the spec: the backoff collaborator (package backoff of
    dskit, vendored, not part of the sources at hand): retry state with fixed
    min/max bounds whose "ongoing" predicate decides when to stop retrying.
    Of the two bounds the spec allows the helper has the attempt bound,
    [MaxRetries], which a configuration sets or leaves at Go's zero value; in
    the latter case, as the spec's note on the retry-forever risk has it, the
    predicate has no bound of its own.  The helper is tied to the context
    given to [backoff.New] and stops once that context reports an error.
    [Wait] counts the retry; how long it sleeps plays no part in what Update
    returns and is left out. *)
Record Backoff : Type := {
  cfg : backoff_Config;
  ctx_Err : option error;
  numRetries : nat
}.

Definition backoff_New (ctx_err : option error) (c : backoff_Config) : Backoff :=
  {| cfg := c; ctx_Err := ctx_err; numRetries := 0 |}.

Definition Backoff_Reset (b : Backoff) : Backoff :=
  {| cfg := cfg b; ctx_Err := ctx_Err b; numRetries := 0 |}.

Definition Backoff_Ongoing (b : Backoff) : bool :=
  match ctx_Err b with
  | Some _ => false
  | None => (MaxRetries (cfg b) =? 0)%nat || (numRetries b <? MaxRetries (cfg b))%nat
  end.

Definition Backoff_Wait (b : Backoff) : Backoff :=
  {| cfg := cfg b; ctx_Err := ctx_Err b; numRetries := S (numRetries b) |}.

(** [context.TODO()] is never cancelled: its [Err()] is always nil. *)
Definition context_TODO : option error := None.

Definition Millisecond : Z := 1000000%Z.
Definition Second : Z := 1000000000%Z.

(** ** The updater *)

(** The [Updater] struct.  A nil pointer field is [None]; [builderOnce] is the
    done flag of the [sync.Once].  The bucket and what is logged live in the
    [World] below; metrics are not modelled. *)
Record Updater : Type := {
  metastoreBuilder : option Builder;
  tenantID : string;
  backoff : Backoff;
  buf : option Bytes;
  builderOnce : bool
}.

Definition NewUpdater (tenant : string) : Updater :=
  {| metastoreBuilder := None;
     tenantID := tenant;
     backoff := backoff_New context_TODO
                  {| MinBackoff := (50 * Millisecond)%Z;
                     MaxBackoff := (10 * Second)%Z;
                     MaxRetries := 0 |};
     buf := None;
     builderOnce := false |}.

Definition set_builder (m : Updater) (b : Builder) : Updater :=
  {| metastoreBuilder := Some b; tenantID := tenantID m; backoff := backoff m;
     buf := buf m; builderOnce := builderOnce m |}.

Definition set_buf (m : Updater) (b : Bytes) : Updater :=
  {| metastoreBuilder := metastoreBuilder m; tenantID := tenantID m; backoff := backoff m;
     buf := Some b; builderOnce := builderOnce m |}.

Definition set_backoff (m : Updater) (b : Backoff) : Updater :=
  {| metastoreBuilder := metastoreBuilder m; tenantID := tenantID m; backoff := b;
     buf := buf m; builderOnce := builderOnce m |}.

(** [initBuilder]: the function given to [builderOnce.Do] runs on the first
    call only, whatever it did. *)
Definition initBuilder (m : Updater) : option error * Updater :=
  if builderOnce m then (None, m)
  else
    match logsobj_NewBuilder metastoreBuilderCfg with
    | Fail err =>
        (Some err,
         {| metastoreBuilder := metastoreBuilder m; tenantID := tenantID m;
            backoff := backoff m; buf := buf m; builderOnce := true |})
    | Ok metastoreBuilder' =>
        (None,
         {| metastoreBuilder := Some metastoreBuilder'; tenantID := tenantID m;
            backoff := backoff m; buf := Some NoBytes; builderOnce := true |})
    end.

(** The [existing io.Reader] handed to the function given to GetAndReplace:
    its content, and the error reading it runs into, if any. *)
Record io_Reader : Type := { content : Bytes; read_err : option error }.

(** [io.Copy(m.buf, existing)] into the freshly reset buffer; a nil reader
    leaves it empty. *)
Definition io_Copy (existing : option io_Reader) : result Bytes :=
  match existing with
  | None => Ok NoBytes
  | Some r =>
      match read_err r with
      | Some err => Fail err
      | None => Ok (content r)
      end
  end.

(** The [if m.buf.Len() > 0] block: the buffer is decoded and replayed into
    the builder. *)
Definition replayExisting (copied : Bytes) (b : Builder) : option error * Builder :=
  if nonempty copied then
    match FromReaderAt copied with
    | Fail err => (Some (Wrap err "creating object from buffer"), b)
    | Ok object =>
        match readFromExisting object b with
        | (Some err, b') => (Some (Wrap err "reading existing metastore version"), b')
        | (None, b') => (None, b')
        end
    end
  else (None, b).

(** The function Update gives to GetAndReplace.  [None] is a nil-pointer
    panic. *)
Definition Update_func (dataobjPath : string) (minTimestamp maxTimestamp : time_Time)
    (m : Updater) (existing : option io_Reader) : option (result Bytes * Updater) :=
  match buf m with
  | None => None
  | Some _ =>
      let m := set_buf m NoBytes in
      match io_Copy existing with
      | Fail err => Some (Fail (Wrap err "copying to local buffer"), m)
      | Ok copied =>
          let m := set_buf m copied in
          match metastoreBuilder m with
          | None => None
          | Some stale =>
              match replayExisting copied (Builder_Reset stale) with
              | (Some err, b) => Some (Fail err, set_builder m b)
              | (None, b) =>
                  match Builder_Append b
                          (registrationStream dataobjPath minTimestamp maxTimestamp) with
                  | (Some err, b') =>
                      Some (Fail (Wrap err "appending internal metadata stream"),
                            set_builder m b')
                  | (None, b') =>
                      let m := set_buf (set_builder m b') NoBytes in
                      match Builder_Flush b' with
                      | Fail err => Some (Fail (Wrap err "flushing metastore builder"), m)
                      | Ok flushed => Some (Ok flushed, set_buf m flushed)
                      end
                  end
              end
          end
      end
  end.

(** ** The window planner *)

(** Modelled from the spec: the bucket a timestamp falls in (the window
    planner is not part of the sources at hand): a fixed-size, aligned time
    bucket, a pure function of the timestamp and the bucket size. *)
Definition windowStart (t : time_Time) : Z :=
  (t / metastoreWindowSize * metastoreWindowSize)%Z.

Fixpoint windowsFrom (count : nat) (tenant : string) (start : Z) : list Window :=
  match count with
  | O => []
  | S count' => (tenant, start) :: windowsFrom count' tenant (start + metastoreWindowSize)
  end.

(** Modelled from the spec: the window planner [iterStorePaths], not part of
    the sources at hand: the windows the range from [minTimestamp] to
    [maxTimestamp] spans, from the bucket of the first to the bucket of the
    second, one bucket size apart. *)
Definition iterStorePaths (tenant : string) (minTimestamp maxTimestamp : time_Time)
  : list Window :=
  let first := windowStart minTimestamp in
  let last := windowStart maxTimestamp in
  if (last <? first)%Z then []
  else windowsFrom (S (Z.to_nat ((last - first) / metastoreWindowSize))) tenant first.

(** ** The bucket, one call at a time *)

(** What happens around one GetAndReplace call. *)
Inductive Event : Type :=
| Quiet                       (* nothing interferes *)
| FetchFails (err : error)    (* the read of the current content fails *)
| BodyFails (err : error)     (* the content is found, reading it fails *)
| Overtaken (other : Bytes)   (* another writer replaces the object after the read *)
| ReplaceFails (err : error)  (* the conditional replace fails for another reason *)
| Cancel.                     (* the caller cancels the context before the call *)

(** The bucket's objects, whether the call's context is done, and the
    outcome Update logs for each attempt (newest first): the path and the
    error, nil for "successfully merged & updated metastore". *)
Record World : Type := {
  objects : gmap Window Bytes;
  ctx_done : bool;
  attempts : list (Window * option error)
}.

Definition logAttempt (w : World) (line : Window * option error) : World :=
  {| objects := objects w; ctx_done := ctx_done w; attempts := line :: attempts w |}.

Definition put (w : World) (name : Window) (b : Bytes) : World :=
  {| objects := <[name := b]> (objects w); ctx_done := ctx_done w; attempts := attempts w |}.

Definition overtake (ev : Event) (name : Window) (w : World) : World :=
  match ev with
  | Overtaken other => put w name other
  | _ => w
  end.

Definition body_err (ev : Event) : option error :=
  match ev with
  | BodyFails err => Some err
  | _ => None
  end.

(** Modelled from the spec: the object store collaborator
    ([objstore.Bucket.GetAndReplace], not part of the sources at hand): read
    the current bytes of the path, absence not being an error; hand them to
    [f]; submit what [f] returns as the replacement only if the store's
    content still matches what was read, reporting a conflict otherwise.  A
    failed call leaves the content as it was (or as the other writer left it).
    A done context fails the call with the cancellation error.  [None] is a
    panic inside [f]. *)
Definition GetAndReplace (ev : Event) (name : Window)
    (f : Updater -> option io_Reader -> option (result Bytes * Updater))
    (m : Updater) (w : World) : option (option error * Updater * World) :=
  let cancelled := ctx_done w || match ev with Cancel => true | _ => false end in
  let w := {| objects := objects w; ctx_done := cancelled; attempts := attempts w |} in
  if cancelled then Some (Some context_Canceled, m, w)
  else
    match ev with
    | FetchFails err => Some (Some err, m, w)
    | _ =>
        let existing :=
          (fun b => {| content := b; read_err := body_err ev |}) <$> (objects w !! name) in
        match f m existing with
        | None => None
        | Some (Fail err, m') => Some (Some err, m', overtake ev name w)
        | Some (Ok replacement, m') =>
            match ev with
            | Overtaken other => Some (Some ErrStale, m', put w name other)
            | ReplaceFails err => Some (Some err, m', w)
            | _ => Some (None, m', put w name replacement)
            end
        end
    end.

(** ** Update *)

(** How a run of Update ends: it returns, it panics on a nil pointer, or it
    is still retrying when the rounds it was given are used up. *)
Inductive Outcome : Type :=
| Returns (err : option error) (m : Updater) (w : World)
| Panics (w : World)
| Spins (m : Updater) (w : World).

(** The inner [for m.backoff.Ongoing()] loop for one window.  [env k] is what
    happens around the bucket's [k]-th call; [err] is Update's variable of
    that name. *)
Fixpoint retryLoop (rounds : nat) (env : nat -> Event)
    (dataobjPath : string) (minTimestamp maxTimestamp : time_Time)
    (metastorePath : Window) (err : option error) (m : Updater) (w : World) : Outcome :=
  if Backoff_Ongoing (backoff m) then
    match rounds with
    | O => Spins m w
    | S rounds' =>
        match GetAndReplace (env (length (attempts w))) metastorePath
                (Update_func dataobjPath minTimestamp maxTimestamp) m w with
        | None => Panics w
        | Some (None, m', w') => Returns None m' (logAttempt w' (metastorePath, None))
        | Some (Some e, m', w') =>
            retryLoop rounds' env dataobjPath minTimestamp maxTimestamp metastorePath
              (Some e)
              (set_backoff m' (Backoff_Wait (backoff m')))
              (logAttempt w' (metastorePath, Some e))
        end
    end
  else Returns err m w.

(** The outer [for metastorePath := range iterStorePaths(...)] loop. *)
Fixpoint forWindows (rounds : nat) (env : nat -> Event)
    (dataobjPath : string) (minTimestamp maxTimestamp : time_Time)
    (paths : list Window) (err : option error) (m : Updater) (w : World) : Outcome :=
  match paths with
  | [] => Returns err m w
  | metastorePath :: rest =>
      match retryLoop rounds env dataobjPath minTimestamp maxTimestamp metastorePath err
              (set_backoff m (Backoff_Reset (backoff m))) w with
      | Returns err' m' w' =>
          match metastoreBuilder m' with
          | None => Panics w'
          | Some b =>
              forWindows rounds env dataobjPath minTimestamp maxTimestamp rest err'
                (set_builder m' (Builder_Reset b)) w'
          end
      | other => other
      end
  end.

Definition Update (rounds : nat) (env : nat -> Event) (m : Updater) (w : World)
    (dataobjPath : string) (minTimestamp maxTimestamp : time_Time) : Outcome :=
  match initBuilder m with
  | (Some err, m') => Returns (Some err) m' w
  | (None, m') =>
      forWindows rounds env dataobjPath minTimestamp maxTimestamp
        (iterStorePaths (tenantID m') minTimestamp maxTimestamp) None m' w
  end.

(** ** Vocabulary for the statements *)

(** The rows a builder would flush. *)
Definition builderRows (b : Builder) : list streams_Stream := map rowOfStream (appended b).

(** An updater whose one-time initialisation has run without constructing
    the builder and the buffer. *)
Definition unconstructed (m : Updater) : Prop :=
  builderOnce m = true /\ metastoreBuilder m = None /\ buf m = None.

(** The object with the rows of [copied] followed by the row of [r]. *)
Definition merged (copied : Bytes) (r : logproto_Stream) : Bytes :=
  objectOf (rowsOfBytes copied ++ [rowOfStream r]).

(** The object with the rows the reads of [copied] deliver followed by the
    row of [r]. *)
Definition reencoded (copied : Bytes) (r : logproto_Stream) : Bytes :=
  objectOf (deliveredOfBytes copied ++ [rowOfStream r]).

End Metastore.

(** Runs that are read to the end: no read reports an error other than the
    io-end sentinel, and a read that returns no rows has no rows after it. *)
Fixpoint readableRuns (runs : list Run) : bool :=
  match runs with
  | [] => true
  | (rows, err) :: rest =>
      match is_failure err with
      | Some _ => false
      | None =>
          match rows with
          | [] => match rowsOfRuns rest with [] => true | _ :: _ => false end
          | _ :: _ => readableRuns rest
          end
      end
  end.

(** A section the replayer gets through: not a registration-record section,
    or one that opens and whose reads report nothing but the end. *)
Definition readableSection (s : dataobj_Section) : bool :=
  match s with
  | StreamsSection runs => readableRuns runs
  | DamagedStreamsSection _ => false
  | OtherSection => true
  end.

Definition readableBytes (b : Bytes) : bool :=
  match b with
  | NoBytes => true
  | Encoded sections => forallb readableSection sections
  | Garbage _ => false
  end.

(** ** Two calls on one window *)

Section Race.

Context `{Collaborators}.

(** Modelled from the spec: the object store's view of one path (the bucket
    is not part of the sources at hand): [read(path)] gives the bytes and a
    generation token or not-found, [compareAndReplace] succeeds only if the
    generation token is still the current one and reports a conflict
    otherwise. *)
Record Store : Type := { current : option Bytes; generation : nat }.

Definition rowsOfStore (s : Store) : list streams_Stream :=
  match current s with
  | Some b => rowsOfBytes b
  | None => []
  end.

(** What Update was called with. *)
Record Registration : Type := {
  reg_path : string;
  reg_min : time_Time;
  reg_max : time_Time
}.

(** Where a call of Update is in its loop for the window: at the loop head,
    inside GetAndReplace with the content and token it has read, or back from
    the loop with the error it returns. *)
Inductive Phase : Type :=
| AtLoopHead
| Fetched (existing : option Bytes) (token : nat)
| Finished (err : option error).

Record Call : Type := { updater : Updater; phase : Phase; err_var : option error }.

Definition startCall (m : Updater) : Call :=
  {| updater := set_backoff m (Backoff_Reset (backoff m));
     phase := AtLoopHead;
     err_var := None |}.

(** A failed attempt: [err] is set, the backoff waits, the loop goes round. *)
Definition retry (m : Updater) (e : error) : Call :=
  {| updater := set_backoff m (Backoff_Wait (backoff m));
     phase := AtLoopHead;
     err_var := Some e |}.

(** Leaving the loop: the builder is reset and [err] is returned. *)
Definition leave (m : Updater) (err : option error) : option Call :=
  match metastoreBuilder m with
  | None => None
  | Some b =>
      Some {| updater := set_builder m (Builder_Reset b); phase := Finished err;
              err_var := err |}
  end.

(** What one call does next. *)
Inductive Action : Type :=
| Leave                                  (* the loop condition fails *)
| Fetch                                  (* the read inside GetAndReplace *)
| FetchFault (err : error)               (* ... which fails *)
| Replace (body fault : option error).   (* run the function, then compare and replace *)

Definition act (r : Registration) (a : Action) (s : Store) (c : Call)
  : option (Store * Call) :=
  match phase c, a with
  | AtLoopHead, Leave =>
      if Backoff_Ongoing (backoff (updater c)) then None
      else c' ← leave (updater c) (err_var c); Some (s, c')
  | AtLoopHead, Fetch =>
      if Backoff_Ongoing (backoff (updater c))
      then Some (s, {| updater := updater c;
                       phase := Fetched (current s) (generation s);
                       err_var := err_var c |})
      else None
  | AtLoopHead, FetchFault e =>
      if Backoff_Ongoing (backoff (updater c)) then Some (s, retry (updater c) e) else None
  | Fetched existing token, Replace body fault =>
      let reader := (fun b => {| content := b; read_err := body |}) <$> existing in
      match Update_func (reg_path r) (reg_min r) (reg_max r) (updater c) reader with
      | None => None
      | Some (Fail e, m') => Some (s, retry m' e)
      | Some (Ok replacement, m') =>
          match fault with
          | Some e => Some (s, retry m' e)
          | None =>
              if (token =? generation s)%nat
              then c' ← leave m' None;
                   Some ({| current := Some replacement; generation := S (generation s) |}, c')
              else Some (s, retry m' ErrStale)
          end
      end
  | _, _ => None
  end.

(** A schedule says which of the two calls moves, and how. *)
Definition move (r1 r2 : Registration) (who : bool) (a : Action)
    (st : Store * Call * Call) : option (Store * Call * Call) :=
  let '(s, c1, c2) := st in
  if who then '(s', c1') ← act r1 a s c1; Some (s', c1', c2)
  else '(s', c2') ← act r2 a s c2; Some (s', c1, c2').

Fixpoint run (r1 r2 : Registration) (schedule : list (bool * Action))
    (st : Store * Call * Call) : option (Store * Call * Call) :=
  match schedule with
  | [] => Some st
  | (who, a) :: rest => st' ← move r1 r2 who a st; run r1 r2 rest st'
  end.

(** The store holds nothing, or an object that the replayer gets through. *)
Definition readableStore (s : Store) : Prop :=
  readableBytes (default NoBytes (current s)) = true.

(** What holds of a call at every point of a race, given the store [s]:
    the backoff keeps the configuration [c0] and a live context; at the loop
    head with [err] still nil no attempt was made yet; a token that is still
    current comes with the current content; a call that returned nil has its
    registration in the store, which holds an object written by a call; a
    call that returned an error had a bound on its retries. *)
Definition call_invariant (r : Registration) (c0 : backoff_Config) (s : Store) (c : Call)
  : Prop :=
  cfg (backoff (updater c)) = c0 /\
  ctx_Err (backoff (updater c)) = None /\
  match phase c with
  | AtLoopHead => err_var c = None -> numRetries (backoff (updater c)) = 0
  | Fetched existing token =>
      token <= generation s /\ (token = generation s -> existing = current s)
  | Finished None =>
      rowOfStream (registrationStream (reg_path r) (reg_min r) (reg_max r)) ∈ rowsOfStore s /\
      readableStore s
  | Finished (Some _) => MaxRetries c0 <> 0
  end.

(** The store after a replace: one generation on, with an object that the
    replayer gets through, and with one more row if the object replaced was
    such an object. *)
Definition grown (s s' : Store) : Prop :=
  generation s' = S (generation s) /\
  readableStore s' /\
  (readableStore s -> exists row, rowsOfStore s' = (rowsOfStore s ++ [row])%list).

End Race.

(** ** Concrete collaborators and scenarios *)

Definition renderLabel (l : Label) : string := Name l ++ "=" ++ Value l ++ ";".

(** A bucket size of one hour, a builder that accepts everything. *)
Definition hourly : Collaborators := {|
  metastoreWindowSize := 3600 * Second;
  logsobj_NewBuilder := fun _ => Ok emptyBuilder;
  Append_check := fun _ _ => None;
  Flush_check := fun _ => None;
  labels_String := fun ls => String.concat "" (map renderLabel ls)
|}.

Definition emptyWorld : World := {| objects := ∅; ctx_done := false; attempts := [] |}.

Definition Minute : Z := (60 * Second)%Z.

(** An updater whose builder is constructed and whose backoff gives up after
    [retries] attempts ([retries] = 0: as NewUpdater configures it). *)
Definition readyUpdater (tenant : string) (retries : nat) : Updater :=
  {| metastoreBuilder := Some emptyBuilder;
     tenantID := tenant;
     backoff := backoff_New context_TODO
                  {| MinBackoff := (50 * Millisecond)%Z;
                     MaxBackoff := (10 * Second)%Z;
                     MaxRetries := retries |};
     buf := Some NoBytes;
     builderOnce := true |}.

(** The same collaborators, with a builder constructor that fails. *)
Definition brokenBuilder : Collaborators := {|
  metastoreWindowSize := 3600 * Second;
  logsobj_NewBuilder := fun _ => Fail (Err "invalid builder config");
  Append_check := fun _ _ => None;
  Flush_check := fun _ => None;
  labels_String := fun ls => String.concat "" (map renderLabel ls)
|}.

(** Bucket behaviours. *)
Definition storeDown : nat -> Event := fun _ => FetchFails (Err "bucket unavailable").

Definition downAtFirst (calls : nat) : nat -> Event :=
  fun k => if (k <? calls)%nat then FetchFails (Err "bucket unavailable") else Quiet.

(** The first call goes through, the second fails, and the caller cancels
    the context while Update waits to retry. *)
Definition cancelledMidRetry : nat -> Event :=
  fun k =>
    match k with
    | 0 => Quiet
    | 1 => FetchFails (Err "bucket unavailable")
    | _ => Cancel
    end.

Definition overtakenOnce (other : Bytes) : nat -> Event :=
  fun k => match k with O => Overtaken other | S _ => Quiet end.

(** A race in which the first call wins and the second one runs into the
    conflict, reads again and succeeds. *)
Definition loserRetries : list (bool * Action) :=
  [ (true, Fetch); (false, Fetch);
    (true, Replace None None); (false, Replace None None);
    (false, Fetch); (false, Replace None None) ].

Definition obj1 : Registration :=
  {| reg_path := "obj-1"; reg_min := (10 * Minute)%Z; reg_max := (45 * Minute)%Z |}.

Definition obj2 : Registration :=
  {| reg_path := "obj-2"; reg_min := (50 * Minute)%Z; reg_max := (55 * Minute)%Z |}.

Definition noObject : Store := {| current := None; generation := 0 |}.

Definition window0 : Window := ("t1", 0%Z).
Definition window1 : Window := ("t1", 3600000000000%Z).

(** The object of the first window once "obj-1" is registered. *)
Definition afterObj1 : list dataobj_Section :=
  [ StreamsSection
      [ ([ rowOfStream (@registrationStream hourly "obj-1" (10 * Minute)%Z (45 * Minute)%Z) ],
         None) ];
    OtherSection ].

(** The parts of an outcome. *)
Definition updaterOf (o : Outcome) : Updater :=
  match o with Returns _ m _ | Spins m _ => m | Panics _ => NewUpdater "" end.

Definition worldOf (o : Outcome) : World :=
  match o with Returns _ _ w | Spins _ w | Panics w => w end.

(** "obj-2" over two windows, with the backoff NewUpdater configures and a
    bucket that fails its first call. *)
Definition retriedRun : Outcome :=
  @Update hourly 3 (downAtFirst 1) (readyUpdater "t1" 0) emptyWorld
    "obj-2" (50 * Minute)%Z (80 * Minute)%Z.

(** "obj-2" over two windows, with an updater that gives up after two
    attempts and a bucket that fails its first two calls. *)
Definition twoWindowRun : Outcome :=
  @Update hourly 3 (downAtFirst 2) (readyUpdater "t1" 2) emptyWorld
    "obj-2" (50 * Minute)%Z (80 * Minute)%Z.

(** ** Vocabulary for the further properties *)

(** An updater whose builder and buffer exist. *)
Definition constructed (m : Updater) : Prop :=
  is_Some (metastoreBuilder m) /\ is_Some (buf m).

(** The registration rows the bucket holds for a window; none when it has no
    object there. *)
Definition storedRows (w : World) (name : Window) : list streams_Stream :=
  rowsOfBytes (default NoBytes (objects w !! name)).

Definition is_Overtaken (ev : Event) : bool :=
  match ev with
  | Overtaken _ => true
  | _ => false
  end.

(** The bucket's objects once the other writers have made the replacements
    that go with the calls [k], ..., [k + n - 1] of the bucket for [name]. *)
Fixpoint interfered (env : nat -> Event) (name : Window) (k n : nat)
    (objs : gmap Window Bytes) : gmap Window Bytes :=
  match n with
  | O => objs
  | S n' =>
      interfered env name (S k) n'
        match env k with
        | Overtaken other => <[name := other]> objs
        | _ => objs
        end
  end.

(** The objects [objs'] are the objects [objs] but for what other writers
    put at [name] with a call of the bucket from the [k]-th on. *)
Definition untouched (env : nat -> Event) (name : Window) (k : nat)
    (objs objs' : gmap Window Bytes) : Prop :=
  forall p,
    objs' !! p = objs !! p \/
    p = name /\
    exists k' other, k <= k' /\ env k' = Overtaken other /\ objs' !! p = Some other.

(** ** Further scenarios *)

(** The object of the first window with "obj-1" and "obj-2" registered, of
    which a page fails to decode: the read after the first row returns no rows
    and an error.  The row of "obj-2" lies behind that read. *)
Definition tornObject : list dataobj_Section :=
  [ StreamsSection
      [ ([ rowOfStream (@registrationStream hourly "obj-1" (10 * Minute)%Z (45 * Minute)%Z) ],
         None);
        ([], Some (Err "decoding page"));
        ([ rowOfStream (@registrationStream hourly "obj-2" (50 * Minute)%Z (55 * Minute)%Z) ],
         None) ];
    OtherSection ].

Definition tornWorld : World :=
  {| objects := {[ window0 := Encoded tornObject ]}; ctx_done := false; attempts := [] |}.

(** A conflict on the first attempt for the first window of "obj-2": another
    writer registers "obj-1" between the read and the replace. *)
Definition overtakenRun : Outcome :=
  @retryLoop hourly 2 (overtakenOnce (Encoded afterObj1)) "obj-2"
    (50 * Minute)%Z (80 * Minute)%Z window0 None (readyUpdater "t1" 0) emptyWorld.

(** A bucket in which "obj-1" is registered for the first window. *)
Definition registeredWorld : World :=
  {| objects := {[ window0 := Encoded afterObj1 ]}; ctx_done := false; attempts := [] |}.

(** A bucket whose object for the first window is not a metastore object. *)
Definition corruptWorld : World :=
  {| objects := {[ window0 := Garbage (Err "invalid magic") ]};
     ctx_done := false; attempts := [] |}.

(** ** The partition offset metrics (package consumer) *)

(** The collectors a [partitionOffsetMetrics] holds, by field. *)
Inductive Collector : Type :=
| commitFailures
| appendFailures
| currentOffset
| processingDelay
| bytesProcessed
| commitsTotal
| appendsTotal.

(** What [reg.Register] returns as an error: a
    [prometheus.AlreadyRegisteredError] or something else. *)
Inductive RegisterError : Type :=
| AlreadyRegisteredError
| OtherRegisterError (msg : string).

(** A [prometheus.Registerer], taken at its interface: a registry state and
    what Register and Unregister do to it. *)
Class Registerer (R : Type) : Type := {
  Register : R -> Collector -> R * option RegisterError;
  Unregister : R -> Collector -> R * bool
}.

(** The slice both [register] and [unregister] build. *)
Definition offsetCollectors : list Collector :=
  [commitFailures; appendFailures; currentOffset; processingDelay; bytesProcessed].

Section OffsetMetrics.

Context {R : Type} `{Registerer R}.

(** The loop of [register] over a slice of collectors: an error is returned
    unless it is an AlreadyRegisteredError. *)
Fixpoint registerEach (collectors : list Collector) (reg : R) : R * option RegisterError :=
  match collectors with
  | [] => (reg, None)
  | collector :: rest =>
      match Register reg collector with
      | (reg', None) => registerEach rest reg'
      | (reg', Some AlreadyRegisteredError) => registerEach rest reg'
      | (reg', Some err) => (reg', Some err)
      end
  end.

Definition register (reg : R) : R * option RegisterError :=
  registerEach offsetCollectors reg.

Fixpoint unregisterEach (collectors : list Collector) (reg : R) : R :=
  match collectors with
  | [] => reg
  | collector :: rest => unregisterEach rest (Unregister reg collector).1
  end.

Definition unregister (reg : R) : R := unregisterEach offsetCollectors reg.

End OffsetMetrics.

(** A registry that is the list of the collectors it holds. *)
Definition Collector_index (c : Collector) : nat :=
  match c with
  | commitFailures => 0
  | appendFailures => 1
  | currentOffset => 2
  | processingDelay => 3
  | bytesProcessed => 4
  | commitsTotal => 5
  | appendsTotal => 6
  end.

Definition sameCollector (c c' : Collector) : bool :=
  (Collector_index c =? Collector_index c')%nat.

Definition hasCollector (reg : list Collector) (c : Collector) : bool :=
  existsb (sameCollector c) reg.

Definition listRegistry : Registerer (list Collector) := {|
  Register := fun reg c =>
    if hasCollector reg c then (reg, Some AlreadyRegisteredError) else (c :: reg, None);
  Unregister := fun reg c =>
    (List.filter (fun c' => negb (sameCollector c c')) reg, hasCollector reg c)
|}.

(** A registry that rejects the histogram for a reason of its own. *)
Definition pickyRegistry : Registerer (list Collector) := {|
  Register := fun reg c =>
    if sameCollector c processingDelay
    then (reg, Some (OtherRegisterError "descriptor rejected"))
    else if hasCollector reg c then (reg, Some AlreadyRegisteredError) else (c :: reg, None);
  Unregister := fun reg c =>
    (List.filter (fun c' => negb (sameCollector c c')) reg, hasCollector reg c)
|}.

(** An object of two registration sections with a section of another kind
    between them. *)
Definition threeSections : list dataobj_Section :=
  [ StreamsSection
      [ ([ {| stream_Labels_String := "a" |}; {| stream_Labels_String := "b" |} ], None) ];
    OtherSection;
    StreamsSection [ ([ {| stream_Labels_String := "c" |} ], Some io_EOF) ] ].

(** "obj-2" over two windows on an empty, quiet bucket. *)
Definition quietRun : Outcome :=
  @Update hourly 1 (fun _ => Quiet) (readyUpdater "t1" 0) emptyWorld
    "obj-2" (50 * Minute)%Z (80 * Minute)%Z.

(** * Properties *)

Local Open Scope list_scope.

Section Replay.

Context `{Collaborators}.

(** ** What the replayer leaves in the builder *)

Lemma Builder_Append_rows b s b' :
  Builder_Append b s = (None, b') -> builderRows b' = builderRows b ++ [rowOfStream s].
Proof.
  unfold Builder_Append, builderRows.
  destruct (Append_check b s); intros [= <-]; simpl.
  by rewrite map_app.
Qed.

Lemma appendStreams_rows batch : forall b b',
  appendStreams batch b = (None, b') -> builderRows b' = builderRows b ++ batch.
Proof.
  induction batch as [|stream rest IH]; simpl; intros b b'.
  - intros [= <-]. by rewrite app_nil_r.
  - destruct (Builder_Append b _) as [[e|] b1] eqn:Happ; [discriminate|].
    intros Hrest. apply IH in Hrest. apply Builder_Append_rows in Happ.
    rewrite Hrest, Happ, <- app_assoc. by destruct stream.
Qed.

Lemma appendStreams_app batch1 batch2 b :
  appendStreams (batch1 ++ batch2) b =
  match appendStreams batch1 b with
  | (Some e, b') => (Some e, b')
  | (None, b') => appendStreams batch2 b'
  end.
Proof.
  revert b. induction batch1 as [|stream batch1 IH]; intros b; [done|].
  cbn [app appendStreams]. destruct (Builder_Append b _) as [[e|] b']; [done|]. apply IH.
Qed.

Lemma appendStreams_prefix batch : forall b,
  exists done_, done_ `prefix_of` batch /\
    builderRows (appendStreams batch b).2 = builderRows b ++ done_.
Proof.
  induction batch as [|stream batch IH]; intros b; cbn [appendStreams].
  { exists []. by rewrite app_nil_r. }
  destruct (Builder_Append b _) as [[e|] b'] eqn:Happ.
  - exists []. split; [apply prefix_nil|].
    unfold Builder_Append in Happ. destruct (Append_check b _); [|discriminate].
    injection Happ as _ <-. by rewrite app_nil_r.
  - destruct (IH b') as (done_ & Hprefix & Hrows).
    exists (stream :: done_). split; [by apply prefix_cons|].
    rewrite Hrows. apply Builder_Append_rows in Happ. rewrite Happ, <- app_assoc.
    by destruct stream.
Qed.

(** ** The rows that the reads deliver *)

Lemma deliveredOfRuns_prefix runs : deliveredOfRuns runs `prefix_of` rowsOfRuns runs.
Proof.
  induction runs as [|[[|row rows] err] rest IH]; cbn [deliveredOfRuns rowsOfRuns].
  - done.
  - apply prefix_nil.
  - by apply prefix_app.
Qed.

Lemma prefix_is_sublist {A} (l k : list A) : l `prefix_of` k -> l `sublist_of` k.
Proof. intros [rest ->]. by apply sublist_inserts_r. Qed.

Lemma sublist_same_length {A} (l k : list A) :
  l `sublist_of` k -> length k <= length l -> l = k.
Proof.
  induction 1 as [|x l k Hsub IH|x l k Hsub IH]; simpl; intros Hlen; [done| |].
  - f_equal. apply IH. lia.
  - apply sublist_length in Hsub. lia.
Qed.

Lemma deliveredOf_sublist sections : deliveredOf sections `sublist_of` rowsOf sections.
Proof.
  induction sections as [|[runs|e|] rest IH]; cbn [deliveredOf rowsOf]; [done| |done..].
  apply sublist_app; [|done]. apply prefix_is_sublist, deliveredOfRuns_prefix.
Qed.

Lemma readableRuns_delivered runs :
  readableRuns runs = true -> deliveredOfRuns runs = rowsOfRuns runs.
Proof.
  induction runs as [|[[|row rows] err] rest IH]; cbn [readableRuns deliveredOfRuns rowsOfRuns];
    [done|..]; destruct (is_failure err); try discriminate.
  - by destruct (rowsOfRuns rest).
  - intros Hrest. by rewrite IH.
Qed.

Lemma readable_delivered sections :
  forallb readableSection sections = true -> deliveredOf sections = rowsOf sections.
Proof.
  induction sections as [|[runs|e|] rest IH]; cbn [forallb readableSection deliveredOf rowsOf];
    [done| |done..].
  intros [Hruns Hrest]%andb_prop. by rewrite IH, readableRuns_delivered.
Qed.

Lemma deliveredOfBytes_sublist b : deliveredOfBytes b `sublist_of` rowsOfBytes b.
Proof. destruct b as [|sections|e]; [done| |done]. apply deliveredOf_sublist. Qed.

Lemma readableBytes_delivered b :
  readableBytes b = true -> deliveredOfBytes b = rowsOfBytes b.
Proof. destruct b as [|sections|e]; [done| |done]. apply readable_delivered. Qed.

Lemma readableBytes_reencoded b r : readableBytes b = true -> reencoded b r = merged b r.
Proof. intros Hb. unfold reencoded, merged. by rewrite readableBytes_delivered. Qed.

Lemma objectOf_rows rows : rowsOfBytes (objectOf rows) = rows.
Proof. unfold objectOf. cbn [rowsOfBytes rowsOf rowsOfRuns]. by rewrite !app_nil_r. Qed.

Lemma objectOf_delivered rows : deliveredOfBytes (objectOf rows) = rows.
Proof.
  unfold objectOf. cbn [deliveredOfBytes deliveredOf].
  destruct rows; cbn [deliveredOfRuns]; by rewrite !app_nil_r.
Qed.

Lemma objectOf_readable rows : readableBytes (objectOf rows) = true.
Proof. unfold objectOf. cbn. by destruct rows. Qed.

(** ** The read loop *)

Lemma readRows_no_rows rounds err rest b :
  readRows rounds {| pending := ([], err) :: rest |} b = (None, b).
Proof. by destruct rounds. Qed.

Lemma readRows_exhausted rounds b : readRows rounds {| pending := [] |} b = (None, b).
Proof. by destruct rounds. Qed.

(** One round of the loop on a run that has rows. *)
Lemma readRows_round rounds row rows err rest b :
  readRows rounds {| pending := (row :: rows, err) :: rest |} b =
  match drop batchSize (row :: rows) with
  | [] =>
      match is_failure err with
      | Some e => (Some (Wrap e "reading streams"), b)
      | None =>
          match appendStreams (row :: rows) b with
          | (Some e, b') => (Some e, b')
          | (None, b') =>
              match rounds with
              | O => (None, b')
              | S rounds' => readRows rounds' {| pending := rest |} b'
              end
          end
      end
  | x :: more =>
      match appendStreams (take batchSize (row :: rows)) b with
      | (Some e, b') => (Some e, b')
      | (None, b') =>
          match rounds with
          | O => (None, b')
          | S rounds' => readRows rounds' {| pending := (x :: more, err) :: rest |} b'
          end
      end
  end.
Proof.
  assert (Hsize : batchSize = S (pred batchSize)) by reflexivity.
  destruct rounds; cbn [readRows RowReader_Read pending];
    (destruct (drop batchSize (row :: rows)) as [|x more]; [done|]);
    (destruct (take batchSize (row :: rows)) as [|y batch] eqn:Htake;
      [rewrite Hsize in Htake; discriminate|done]).
Qed.

Lemma drop_batch_shorter (row : streams_Stream) rows x more :
  drop batchSize (row :: rows) = x :: more ->
  length (x :: more) < length (row :: rows) /\
  take batchSize (row :: rows) ++ x :: more = row :: rows.
Proof.
  intros Hdrop. split.
  - rewrite <- Hdrop, length_drop. unfold batchSize. simpl. lia.
  - rewrite <- Hdrop. apply take_drop.
Qed.

(** The rounds readFromExisting gives the loop are enough: with as many
    rounds as the runs have rows, or more, the loop ends by itself, and on
    the same result. *)
Lemma readRows_enough rounds : forall rounds' runs b,
  length (rowsOfRuns runs) <= rounds ->
  length (rowsOfRuns runs) <= rounds' ->
  readRows rounds {| pending := runs |} b = readRows rounds' {| pending := runs |} b.
Proof.
  induction rounds as [rounds IH] using lt_wf_ind.
  intros rounds' [|[[|row rows] err] rest] b Hlen Hlen'.
  - by rewrite !readRows_exhausted.
  - by rewrite !readRows_no_rows.
  - rewrite !readRows_round. cbn [rowsOfRuns] in *. rewrite length_app in Hlen, Hlen'.
    destruct rounds as [|rounds]; [simpl in Hlen; lia|].
    destruct rounds' as [|rounds']; [simpl in Hlen'; lia|].
    destruct (drop batchSize (row :: rows)) as [|x more] eqn:Hdrop.
    + destruct (is_failure err); [done|].
      destruct (appendStreams (row :: rows) b) as [[e|] b1]; [done|].
      apply IH; [lia|simpl in Hlen; lia|simpl in Hlen'; lia].
    + apply drop_batch_shorter in Hdrop as [Hshort _].
      destruct (appendStreams (take batchSize (row :: rows)) b) as [[e|] b1]; [done|].
      apply IH; [lia|..]; cbn [rowsOfRuns]; rewrite length_app; lia.
Qed.

(** A replay of a section that succeeds has appended the rows its reads
    delivered. *)
Lemma readRows_rows rounds : forall runs b b',
  length (rowsOfRuns runs) <= rounds ->
  readRows rounds {| pending := runs |} b = (None, b') ->
  builderRows b' = builderRows b ++ deliveredOfRuns runs.
Proof.
  induction rounds as [rounds IH] using lt_wf_ind.
  intros [|[[|row rows] err] rest] b b' Hlen.
  - rewrite readRows_exhausted. intros [= <-]. by rewrite app_nil_r.
  - rewrite readRows_no_rows. intros [= <-]. by rewrite app_nil_r.
  - rewrite readRows_round. cbn [rowsOfRuns deliveredOfRuns] in *.
    rewrite length_app in Hlen.
    destruct (drop batchSize (row :: rows)) as [|x more] eqn:Hdrop.
    + destruct (is_failure err); [discriminate|].
      destruct (appendStreams (row :: rows) b) as [[e|] b1] eqn:Hbatch; [discriminate|].
      apply appendStreams_rows in Hbatch.
      destruct rounds as [|rounds]; [simpl in Hlen; lia|].
      intros Hrest. apply IH in Hrest; [|lia|simpl in Hlen; lia].
      by rewrite Hrest, Hbatch, <- app_assoc.
    + apply drop_batch_shorter in Hdrop as [Hshort Hsplit].
      destruct (appendStreams (take batchSize (row :: rows)) b) as [[e|] b1] eqn:Hbatch;
        [discriminate|].
      apply appendStreams_rows in Hbatch.
      destruct rounds as [|rounds]; [simpl in Hlen; lia|].
      intros Hrest. apply IH in Hrest; [|lia|].
      * rewrite Hrest, Hbatch. cbn [deliveredOfRuns].
        rewrite <- app_assoc. f_equal. rewrite app_assoc. by rewrite Hsplit.
      * cbn [rowsOfRuns]. rewrite length_app. lia.
Qed.

(** However a replay of a section ends, it has appended some of the first
    rows that the reads deliver, in their order. *)
Lemma readRows_prefix rounds : forall runs b,
  exists done_, done_ `prefix_of` deliveredOfRuns runs /\
    builderRows (readRows rounds {| pending := runs |} b).2 = builderRows b ++ done_.
Proof.
  induction rounds as [rounds IH] using lt_wf_ind.
  intros [|[[|row rows] err] rest] b.
  - rewrite readRows_exhausted. exists []. by rewrite app_nil_r.
  - rewrite readRows_no_rows. exists []. by rewrite app_nil_r.
  - rewrite readRows_round. cbn [deliveredOfRuns].
    destruct (drop batchSize (row :: rows)) as [|x more] eqn:Hdrop.
    + destruct (is_failure err).
      { exists []. split; [apply prefix_nil|by rewrite app_nil_r]. }
      destruct (appendStreams_prefix (row :: rows) b) as (done_ & Hprefix & Hrows).
      destruct (appendStreams (row :: rows) b) as [[e|] b1] eqn:Hbatch; cbn [snd] in *.
      { exists done_. split; [by apply prefix_app_r|done]. }
      apply appendStreams_rows in Hbatch.
      destruct rounds as [|rounds]; cbn [snd].
      { exists (row :: rows). split; [by apply prefix_app_r|done]. }
      destruct (IH rounds (Nat.lt_succ_diag_r _) rest b1) as (more & Hmore & Hrows').
      exists ((row :: rows) ++ more). split; [by apply prefix_app|].
      by rewrite Hrows', Hbatch, <- app_assoc.
    + apply drop_batch_shorter in Hdrop as [_ Hsplit].
      destruct (appendStreams_prefix (take batchSize (row :: rows)) b)
        as (done_ & Hprefix & Hrows).
      assert (Htake : take batchSize (row :: rows) `prefix_of`
                        (row :: rows) ++ deliveredOfRuns rest).
      { apply prefix_app_r. rewrite <- Hsplit at 2. by apply prefix_app_r. }
      destruct (appendStreams (take batchSize (row :: rows)) b) as [[e|] b1] eqn:Hbatch;
        cbn [snd] in *.
      { exists done_. split; [by etrans|done]. }
      apply appendStreams_rows in Hbatch.
      destruct rounds as [|rounds]; cbn [snd].
      { by exists (take batchSize (row :: rows)). }
      destruct (IH rounds (Nat.lt_succ_diag_r _) ((x :: more, err) :: rest) b1)
        as (further & Hfurther & Hrows').
      exists (take batchSize (row :: rows) ++ further). split.
      * cbn [deliveredOfRuns] in Hfurther. rewrite <- Hsplit at 2.
        rewrite <- app_assoc. by apply prefix_app.
      * by rewrite Hrows', Hbatch, <- app_assoc.
Qed.

(** On runs that are read to the end the loop is the appending of their
    rows, one by one. *)
Lemma readRows_appendStreams rounds : forall runs b,
  length (rowsOfRuns runs) <= rounds ->
  readableRuns runs = true ->
  readRows rounds {| pending := runs |} b = appendStreams (rowsOfRuns runs) b.
Proof.
  induction rounds as [rounds IH] using lt_wf_ind.
  intros [|[[|row rows] err] rest] b Hlen Hreadable.
  - by rewrite readRows_exhausted.
  - rewrite readRows_no_rows. cbn [readableRuns rowsOfRuns app] in *.
    destruct (is_failure err); [discriminate|]. by destruct (rowsOfRuns rest).
  - rewrite readRows_round. cbn [readableRuns rowsOfRuns] in *.
    rewrite length_app in Hlen.
    destruct (is_failure err) eqn:Herr; [discriminate|].
    destruct (drop batchSize (row :: rows)) as [|x more] eqn:Hdrop.
    + rewrite appendStreams_app.
      destruct (appendStreams (row :: rows) b) as [[e|] b1]; [done|].
      destruct rounds as [|rounds]; [simpl in Hlen; lia|].
      apply IH; [lia|simpl in Hlen; lia|done].
    + apply drop_batch_shorter in Hdrop as [Hshort Hsplit].
      rewrite <- Hsplit at 2. rewrite <- app_assoc, appendStreams_app.
      destruct (appendStreams (take batchSize (row :: rows)) b) as [[e|] b1]; [done|].
      destruct rounds as [|rounds]; [simpl in Hlen; lia|].
      rewrite IH; [done|lia| |].
      * cbn [rowsOfRuns]. rewrite length_app. lia.
      * cbn [readableRuns]. by rewrite Herr.
Qed.

(** ** The replay of an object *)

Lemma readFromExisting_rows sections : forall b b',
  readFromExisting sections b = (None, b') ->
  builderRows b' = builderRows b ++ deliveredOf sections.
Proof.
  induction sections as [|section rest IH]; simpl; intros b b'.
  - intros [= <-]. by rewrite app_nil_r.
  - destruct section as [runs|e|].
    + destruct (readRows _ _ b) as [[e|] b1] eqn:Hrows; [discriminate|].
      apply readRows_rows in Hrows; [|done].
      intros Hrest. apply IH in Hrest. by rewrite Hrest, Hrows, <- app_assoc.
    + discriminate.
    + apply IH.
Qed.

Lemma replayExisting_rows copied b b' :
  replayExisting copied b = (None, b') ->
  builderRows b' = builderRows b ++ deliveredOfBytes copied.
Proof.
  unfold replayExisting. destruct copied as [|sections|e]; simpl.
  - intros [= <-]. by rewrite app_nil_r.
  - destruct (readFromExisting sections b) as [[e|] b1] eqn:Hread; [discriminate|].
    intros [= <-]. by apply readFromExisting_rows in Hread.
  - discriminate.
Qed.

(** A run of the function that succeeds returns the rows that the reads of
    the copied content delivered, followed by the new registration. *)
Lemma Update_func_ok path tmin tmax m existing replacement m' :
  Update_func path tmin tmax m existing = Some (Ok replacement, m') ->
  exists copied replayed,
    io_Copy existing = Ok copied /\
    builderRows replayed = deliveredOfBytes copied /\
    replacement = reencoded copied (registrationStream path tmin tmax) /\
    metastoreBuilder m' =
      Some {| appended := appended replayed ++ [registrationStream path tmin tmax] |} /\
    buf m' = Some replacement.
Proof.
  unfold Update_func.
  destruct (buf m) as [leftover|]; [|discriminate].
  destruct (io_Copy existing) as [copied|e]; [|discriminate].
  cbn [metastoreBuilder set_buf].
  destruct (metastoreBuilder m) as [stale|]; [|discriminate].
  destruct (replayExisting copied _) as [[e|] b] eqn:Hreplay; [discriminate|].
  destruct (Builder_Append b _) as [[e|] b'] eqn:Happ; [discriminate|].
  unfold Builder_Flush. destruct (Flush_check b'); [discriminate|].
  intros [= <- <-]. exists copied, b.
  apply replayExisting_rows in Hreplay. cbn [Builder_Reset builderRows emptyBuilder appended map app] in Hreplay.
  pose proof (Builder_Append_rows _ _ _ Happ) as Hrows.
  unfold Builder_Append in Happ. destruct (Append_check b _); [discriminate|].
  injection Happ as <-.
  repeat split; try done.
  unfold reencoded. fold (builderRows {| appended := appended b ++ [registrationStream path tmin tmax] |}).
  by rewrite Hrows, Hreplay.
Qed.

(** The function never looks at what an earlier attempt left in the builder
    or in the buffer: both are reset before they are read. *)
Lemma Update_func_leftovers path tmin tmax m b1 b2 x1 x2 existing :
  fst <$> Update_func path tmin tmax (set_buf (set_builder m b1) x1) existing =
  fst <$> Update_func path tmin tmax (set_buf (set_builder m b2) x2) existing.
Proof.
  unfold Update_func. cbn [buf set_buf set_builder metastoreBuilder].
  destruct (io_Copy existing) as [copied|e]; [|done].
  unfold Builder_Reset.
  destruct (replayExisting copied emptyBuilder) as [[e|] b]; [done|].
  destruct (Builder_Append b _) as [[e|] b']; [done|].
  by destruct (Builder_Flush b').
Qed.

(** C7: the record the encoder appends is a function of dataobjPath,
    minTimestamp and maxTimestamp alone: whatever the updater holds and
    whatever content exists, a run of the function that succeeds has appended
    one stream whose labels are the text of exactly the three reserved labels,
    start with the decimal UnixNano of minTimestamp, end with that of
    maxTimestamp, path with dataobjPath, and whose single entry has an empty
    line; that stream is the last record of the builder and of the object. *)
Theorem encoded_record_is_fixed path tmin tmax m existing replacement m'
    (Hrun : Update_func path tmin tmax m existing = Some (Ok replacement, m')) :
  let record :=
    {| Labels := labels_String
                   [ {| Name := "__start__"; Value := FormatInt (UnixNano tmin) |};
                     {| Name := "__end__"; Value := FormatInt (UnixNano tmax) |};
                     {| Name := "__path__"; Value := path |} ];
       Entries := [ {| Line := "" |} ] |} in
  registrationStream path tmin tmax = record /\
  (exists replayed, metastoreBuilder m' = Some {| appended := replayed ++ [record] |}) /\
  last (rowsOfBytes replacement) = Some {| stream_Labels_String := Labels record |}.
Proof.
  intros record.
  apply Update_func_ok in Hrun as (copied & replayed & _ & _ & -> & Hb & _).
  split; [done|]. split; [by exists (appended replayed)|].
  unfold reencoded. by rewrite objectOf_rows, last_snoc.
Qed.

End Replay.

Section Attempts.

Context `{Collaborators}.

(** ** One attempt against the bucket *)

Lemma GetAndReplace_success ev name path tmin tmax m w m' w' :
  GetAndReplace ev name (Update_func path tmin tmax) m w = Some (None, m', w') ->
  objects w' = <[name := reencoded (default NoBytes (objects w !! name))
                           (registrationStream path tmin tmax)]> (objects w) /\
  attempts w' = attempts w /\ ctx_done w = false /\ ctx_done w' = false.
Proof.
  unfold GetAndReplace.
  destruct (ctx_done w || _) eqn:Hdone; [discriminate|].
  apply orb_false_elim in Hdone as [Hdone Hev].
  cbn [objects].
  destruct (Update_func _ _ _ m _) as [[[replacement|e] m1]|] eqn:Hrun;
    [|destruct ev; discriminate..].
  apply Update_func_ok in Hrun as (copied & _ & Hcopy & _ & -> & _).
  assert (copied = default NoBytes (objects w !! name)) as ->.
  { destruct (objects w !! name) as [b|]; simpl in Hcopy.
    - destruct (body_err ev); [discriminate|]. by injection Hcopy.
    - by injection Hcopy. }
  destruct ev; try discriminate; intros [= <- <-]; done.
Qed.

Lemma GetAndReplace_failure ev name f m w e m' w' :
  GetAndReplace ev name f m w = Some (Some e, m', w') ->
  attempts w' = attempts w /\
  (objects w' = objects w \/
   exists other, ev = Overtaken other /\ objects w' = <[name := other]> (objects w)).
Proof.
  unfold GetAndReplace.
  destruct (ctx_done w || _) eqn:Hdone.
  { intros [= <- <- <-]. by split; [|left]. }
  destruct (f m _) as [[[replacement|e1] m1]|];
    destruct ev; try discriminate; intros [= <- <- <-]; split; try done;
    try (by left); right; by eexists.
Qed.

(** A failed attempt that leaves the context alive leaves the objects as the
    other writer, if there is one, leaves them. *)
Lemma GetAndReplace_alive ev name f m w e m' w' :
  GetAndReplace ev name f m w = Some (Some e, m', w') ->
  ctx_done w' = false ->
  ctx_done w = false /\
  objects w' = match ev with
               | Overtaken other => <[name := other]> (objects w)
               | _ => objects w
               end.
Proof.
  unfold GetAndReplace.
  destruct (ctx_done w || _) eqn:Hdone.
  { by intros [= <- <- <-]. }
  apply orb_false_elim in Hdone as [Hdone _].
  destruct (f m _) as [[[replacement|e1] m1]|];
    destruct ev; try discriminate; by intros [= <- <- <-].
Qed.

Lemma retryLoop_stopped rounds env path tmin tmax name err m w :
  Backoff_Ongoing (backoff m) = false ->
  retryLoop rounds env path tmin tmax name err m w = Returns err m w.
Proof. intros Hstop. destruct rounds; cbn [retryLoop]; by rewrite Hstop. Qed.

(** A loop that ends in success: the attempts before the last one failed,
    and the last one found the objects as the other writers left them. *)
Lemma retryLoop_success rounds env path tmin tmax name :
  forall err m w m' w',
    Backoff_Ongoing (backoff m) = true ->
    retryLoop rounds env path tmin tmax name err m w = Returns None m' w' ->
    ctx_done w = false /\
    exists failed,
      attempts w' = (name, None) :: failed ++ attempts w /\
      Forall (fun line : Window * option error => line.1 = name /\ is_Some line.2) failed /\
      objects w' =
        <[name := reencoded
                    (default NoBytes
                       (interfered env name (length (attempts w)) (length failed) (objects w)
                          !! name))
                    (registrationStream path tmin tmax)]>
          (interfered env name (length (attempts w)) (length failed) (objects w)).
Proof.
  induction rounds as [|rounds IH]; intros err m w m' w' Hongoing; cbn [retryLoop];
    rewrite Hongoing; [discriminate|].
  destruct (GetAndReplace _ _ _ m w) as [[[[e|] m1] w1]|] eqn:Hcall; [| |discriminate].
  - destruct (Backoff_Ongoing (Backoff_Wait (backoff m1))) eqn:Hagain.
    2:{ by rewrite retryLoop_stopped. }
    intros Hloop. apply IH in Hloop as (Hdone & failed & Hlog & Hfailed & Hobjects); [|done].
    cbn [logAttempt ctx_done attempts objects length] in *.
    pose proof (GetAndReplace_failure _ _ _ _ _ _ _ _ Hcall) as [Hlog1 _].
    apply GetAndReplace_alive in Hcall as [Hdone0 Hobjects1]; [|done].
    split; [done|]. exists (failed ++ [(name, Some e)]).
    rewrite Hlog1 in *. split; [by rewrite <- app_assoc|]. split.
    + apply Forall_app. split; [done|]. by repeat constructor.
    + rewrite length_app, Nat.add_1_r. cbn [length interfered]. by rewrite <- Hobjects1.
  - apply GetAndReplace_success in Hcall as (Hobjects & Hlog & Hdone & _).
    intros [= <- <-]. split; [done|]. exists [].
    cbn [logAttempt attempts objects app length interfered]. by rewrite Hlog.
Qed.

(** A loop that does not end in success has written nothing: every object
    is what it was, or what another writer put there during an attempt. *)
Lemma retryLoop_writes_nothing rounds env path tmin tmax name :
  forall err m w,
    match retryLoop rounds env path tmin tmax name err m w with
    | Returns None _ _ => True
    | other => untouched env name (length (attempts w)) (objects w) (objects (worldOf other))
    end.
Proof.
  assert (Hsame : forall k objs, untouched env name k objs objs) by (intros k objs p; by left).
  induction rounds as [|rounds IH]; intros err m w; cbn [retryLoop];
    destruct (Backoff_Ongoing (backoff m)); try (by destruct err); try done.
  destruct (GetAndReplace _ _ _ m w) as [[[[e|] m1] w1]|] eqn:Hcall; [|done..].
  apply GetAndReplace_failure in Hcall as [Hlog Hobjects].
  specialize (IH (Some e) (set_backoff m1 (Backoff_Wait (backoff m1)))
                (logAttempt w1 (name, Some e))).
  cbn [logAttempt attempts objects length] in IH. rewrite Hlog in IH.
  assert (Hstep : forall objs',
            untouched env name (S (length (attempts w))) (objects w1) objs' ->
            untouched env name (length (attempts w)) (objects w) objs').
  { intros objs' Hrest p. destruct (Hrest p) as [Hp|(-> & k & other & Hk & Hev & Hp)].
    - destruct Hobjects as [Heq|(other & Hev & Heq)]; rewrite Hp, Heq; [by left|].
      destruct (decide (p = name)) as [->|Hne]; [|left; by rewrite lookup_insert_ne].
      right. split; [done|]. exists (length (attempts w)), other.
      by rewrite lookup_insert_eq.
    - right. split; [done|]. exists k, other. split; [lia|done]. }
  destruct (retryLoop rounds env path tmin tmax name (Some e) _ _) as [[e'|] m' w'|w'|m' w'];
    [|done|..]; by apply Hstep.
Qed.

(** C9: the loop for a window never writes what it computed from a stale
    read.  When the loop ends in success after any number of failed attempts
    (store errors, decode or encode errors, conflicts), the object written is
    the re-encoding of the content that the window had when the successful
    attempt read it, that is the content the window had at the start or, if
    other writers replaced it during failed attempts, the content the last
    of them left, followed by the new registration.  However else the loop
    ends, it has written nothing: every object of the bucket is what it was
    or what another writer put there.  Nothing that a failed attempt read or
    computed is ever written. *)
Theorem retry_recomputes_from_fresh_read rounds env path tmin tmax name err m w
    (Hongoing : Backoff_Ongoing (backoff m) = true) :
  match retryLoop rounds env path tmin tmax name err m w with
  | Returns None m' w' =>
      exists failed,
        attempts w' = (name, None) :: failed ++ attempts w /\
        Forall (fun line : Window * option error => line.1 = name /\ is_Some line.2) failed /\
        let found := interfered env name (length (attempts w)) (length failed) (objects w) in
        objects w' =
          <[name := reencoded (default NoBytes (found !! name))
                      (registrationStream path tmin tmax)]> found
  | other => untouched env name (length (attempts w)) (objects w) (objects (worldOf other))
  end.
Proof.
  pose proof (retryLoop_writes_nothing rounds env path tmin tmax name err m w) as Hfailed.
  destruct (retryLoop rounds env path tmin tmax name err m w) as [[e|] m' w'|w'|m' w'] eqn:Hret;
    [done| |done..].
  by apply retryLoop_success in Hret as [_ Hret].
Qed.

End Attempts.

Section Loops.

Context `{Collaborators}.

(** ** What the function and an attempt leave alone in the updater *)

Lemma Update_func_frame path tmin tmax m existing r m' :
  Update_func path tmin tmax m existing = Some (r, m') ->
  backoff m' = backoff m /\ tenantID m' = tenantID m /\ builderOnce m' = builderOnce m /\
  (is_Some (metastoreBuilder m) -> is_Some (metastoreBuilder m')).
Proof.
  unfold Update_func.
  destruct (buf m) as [leftover|]; [|discriminate].
  destruct (io_Copy existing) as [copied|e]; [|by intros [= <- <-]].
  cbn [metastoreBuilder set_buf].
  destruct (metastoreBuilder m) as [stale|] eqn:Hb; [|discriminate].
  destruct (replayExisting copied _) as [[e|] b]; [by intros [= <- <-]|].
  destruct (Builder_Append b _) as [[e|] b']; [by intros [= <- <-]|].
  by destruct (Builder_Flush b'); intros [= <- <-].
Qed.

Lemma GetAndReplace_frame ev name path tmin tmax m w r m' w' :
  GetAndReplace ev name (Update_func path tmin tmax) m w = Some (r, m', w') ->
  backoff m' = backoff m /\ tenantID m' = tenantID m /\ builderOnce m' = builderOnce m /\
  (is_Some (metastoreBuilder m) -> is_Some (metastoreBuilder m')).
Proof.
  unfold GetAndReplace.
  destruct (ctx_done w || _). { by intros [= <- <- <-]. }
  destruct (Update_func _ _ _ m _) as [[res m1]|] eqn:Hrun.
  - apply Update_func_frame in Hrun as (? & ? & ? & ?).
    destruct ev, res; by intros [= <- <- <-].
  - destruct ev; try discriminate. by intros [= <- <- <-].
Qed.

(** ** The retry loop *)

(** A freshly reset backoff lets the loop make an attempt unless the context
    it is tied to is finished. *)
Lemma Backoff_Reset_Ongoing b :
  ctx_Err b = None -> Backoff_Ongoing (Backoff_Reset b) = true.
Proof.
  unfold Backoff_Ongoing, Backoff_Reset. cbn. intros ->.
  destruct (MaxRetries (cfg b)); done.
Qed.


(** What the loop for a window adds to the log: nothing if the loop
    condition fails at once, and else lines for this window, the newest of
    which carries what the loop returns. *)
Lemma retryLoop_log rounds env path tmin tmax name :
  forall err m w err' m' w',
    retryLoop rounds env path tmin tmax name err m w = Returns err' m' w' ->
    exists new,
      attempts w' = new ++ attempts w /\
      match new with
      | [] => err' = err /\ Backoff_Ongoing (backoff m) = false
      | line :: _ => line = (name, err')
      end.
Proof.
  induction rounds as [|rounds IH]; intros err m w err' m' w'; cbn [retryLoop];
    destruct (Backoff_Ongoing (backoff m)) eqn:Hongoing;
    try discriminate; try (intros [= <- <- <-]; by exists []).
  destruct (GetAndReplace _ _ _ m w) as [[[[e|] m1] w1]|] eqn:Hcall; [| |discriminate].
  - apply GetAndReplace_failure in Hcall as [Hlog _].
    intros Hloop. apply IH in Hloop as (new & Hnew & Hhead).
    exists (new ++ [(name, Some e)]). split.
    + rewrite Hnew. cbn [logAttempt attempts]. by rewrite Hlog, <- app_assoc.
    + destruct new as [|line new]; [|done]. by destruct Hhead as [-> _].
  - apply GetAndReplace_success in Hcall as (_ & Hlog & _).
    intros [= <- <- <-]. exists [(name, None)]. cbn [logAttempt attempts].
    by rewrite Hlog.
Qed.

Lemma retryLoop_frame rounds env path tmin tmax name :
  forall err m w err' m' w',
    retryLoop rounds env path tmin tmax name err m w = Returns err' m' w' ->
    cfg (backoff m') = cfg (backoff m) /\ ctx_Err (backoff m') = ctx_Err (backoff m) /\
    tenantID m' = tenantID m /\ builderOnce m' = builderOnce m /\
    (is_Some (metastoreBuilder m) -> is_Some (metastoreBuilder m')).
Proof.
  induction rounds as [|rounds IH]; intros err m w err' m' w'; cbn [retryLoop];
    destruct (Backoff_Ongoing (backoff m)) eqn:Hongoing;
    try discriminate; try (by intros [= <- <- <-]).
  destruct (GetAndReplace _ _ _ m w) as [[[[e|] m1] w1]|] eqn:Hcall; [| |discriminate].
  - pose proof (GetAndReplace_frame _ _ _ _ _ _ _ _ _ _ Hcall) as (Hb & Ht & Ho & Hs).
    intros Hloop. apply IH in Hloop as (Hc & Hx & Ht' & Ho' & Hs').
    cbn [set_backoff backoff Backoff_Wait cfg ctx_Err tenantID builderOnce metastoreBuilder]
      in *.
    rewrite Hb in Hc, Hx. repeat split; try congruence. tauto.
  - pose proof (GetAndReplace_frame _ _ _ _ _ _ _ _ _ _ Hcall) as (Hb & Ht & Ho & Hs).
    intros [= <- <- <-]. by rewrite Hb.
Qed.


(** ** The loop over the windows *)

Lemma forWindows_app rounds env path tmin tmax before after :
  forall err m w,
    forWindows rounds env path tmin tmax (before ++ after) err m w =
    match forWindows rounds env path tmin tmax before err m w with
    | Returns err1 m1 w1 => forWindows rounds env path tmin tmax after err1 m1 w1
    | other => other
    end.
Proof.
  induction before as [|p before IH]; intros err m w; [done|].
  cbn [app forWindows].
  destruct (retryLoop _ _ _ _ _ p err _ w) as [err1 m1 w1| |]; [|done..].
  destruct (metastoreBuilder m1); [apply IH|done].
Qed.

Lemma forWindows_frame rounds env path tmin tmax paths :
  forall err m w err' m' w',
    forWindows rounds env path tmin tmax paths err m w = Returns err' m' w' ->
    cfg (backoff m') = cfg (backoff m) /\ ctx_Err (backoff m') = ctx_Err (backoff m) /\
    tenantID m' = tenantID m /\ builderOnce m' = builderOnce m /\
    (paths <> [] -> metastoreBuilder m' = Some emptyBuilder).
Proof.
  induction paths as [|p paths IH]; intros err m w err' m' w'; cbn [forWindows].
  { by intros [= <- <- <-]. }
  destruct (retryLoop _ _ _ _ _ p err _ w) as [err1 m1 w1| |] eqn:Hloop; [|discriminate..].
  apply retryLoop_frame in Hloop as (Hc & Hx & Ht & Ho & _).
  destruct (metastoreBuilder m1); [|discriminate].
  intros Hrest. pose proof (IH _ _ _ _ _ _ Hrest) as (Hc' & Hx' & Ht' & Ho' & Hb').
  cbn [set_builder set_backoff backoff tenantID builderOnce Backoff_Reset cfg ctx_Err] in *.
  repeat split; try congruence. intros _.
  destruct paths as [|q paths]; [|by apply Hb'].
  cbn [forWindows] in Hrest. by injection Hrest as _ <- _.
Qed.

(** What a returning run over the windows adds to the log: a line for each
    window, the newest one for the last window and with the error that is
    returned. *)
Lemma forWindows_log rounds env path tmin tmax paths :
  forall err m w err' m' w',
    ctx_Err (backoff m) = None ->
    forWindows rounds env path tmin tmax paths err m w = Returns err' m' w' ->
    exists new,
      attempts w' = new ++ attempts w /\
      (forall p, p ∈ paths -> exists e, (p, e) ∈ new) /\
      (forall before final, paths = before ++ [final] ->
         exists older, new = (final, err') :: older).
Proof.
  induction paths as [|p paths IH]; intros err m w err' m' w' Hctx; cbn [forWindows].
  { intros [= <- <- <-]. exists []. split; [done|]. split.
    - intros p Hp. by apply elem_of_nil in Hp.
    - intros [|] ? ?; discriminate. }
  destruct (retryLoop _ _ _ _ _ p err _ w) as [err1 m1 w1| |] eqn:Hloop; [|discriminate..].
  pose proof (retryLoop_frame _ _ _ _ _ _ _ _ _ _ _ _ Hloop) as (_ & Hx & _).
  apply retryLoop_log in Hloop as (new1 & Hnew1 & Hhead).
  cbn [set_backoff backoff] in Hhead, Hx.
  rewrite Backoff_Reset_Ongoing in Hhead by done.
  destruct new1 as [|line new1]; [by destruct Hhead|subst line].
  destruct (metastoreBuilder m1); [|discriminate].
  intros Hrest. destruct paths as [|q paths].
  { cbn [forWindows] in Hrest. injection Hrest as <- <- <-.
    exists ((p, err1) :: new1). split; [done|]. split.
    - intros q ->%list_elem_of_singleton. exists err1. by left.
    - intros [|? [|? ?]] final; try discriminate. intros [= <-]. by eexists. }
  apply IH in Hrest as (new & Hnew & Hall & Hlast).
  2:{ cbn [set_builder backoff]. by rewrite Hx. }
  exists (new ++ (p, err1) :: new1). split; [|split].
  - rewrite Hnew, Hnew1. by rewrite <- app_assoc.
  - intros q' [->|Hq]%elem_of_cons.
    + exists err1. apply elem_of_app. right. by left.
    + destruct (Hall q' Hq) as [e He]. exists e. apply elem_of_app. by left.
  - intros [|p0 before] final Hpaths; [discriminate|].
    injection Hpaths as -> Hpaths.
    destruct (Hlast _ _ Hpaths) as [older ->]. by eexists.
Qed.

Lemma initBuilder_frame m err m0 :
  initBuilder m = (err, m0) ->
  backoff m0 = backoff m /\ tenantID m0 = tenantID m.
Proof.
  unfold initBuilder. destruct (builderOnce m); [by intros [= <- <-]|].
  by destruct (logsobj_NewBuilder _); intros [= <- <-].
Qed.

(** Update has one [err] variable, which every call of GetAndReplace
    assigns.  A call of Update whose initialisation does not fail and that
    returns has logged an attempt for every window of the range, and what it
    returns is the outcome of the attempt it made last, which is an attempt
    on the last window, whatever happened to the windows before it. *)
Lemma Update_returns_last_attempt rounds env m w path tmin tmax before final err m' w'
    (Hinit : fst (initBuilder m) = None)
    (Hctx : ctx_Err (backoff m) = None)
    (Hpaths : iterStorePaths (tenantID m) tmin tmax = before ++ [final])
    (Hret : Update rounds env m w path tmin tmax = Returns err m' w') :
  exists older,
    attempts w' = (final, err) :: older ++ attempts w /\
    forall p, p ∈ before ++ [final] -> exists e, (p, e) ∈ (final, err) :: older.
Proof.
  unfold Update in Hret.
  destruct (initBuilder m) as [init m0] eqn:Hm0. simpl in Hinit. subst init.
  apply initBuilder_frame in Hm0 as [Hb Ht].
  rewrite Ht, Hpaths in Hret.
  apply forWindows_log in Hret as (new & Hnew & Hall & Hlast); [|by rewrite Hb].
  destruct (Hlast _ _ eq_refl) as [older ->].
  exists older. by split.
Qed.

(** C6: the builder is reset before the existing content is replayed, so
    what the function returns does not depend on what an earlier attempt or
    window left in the builder or in the buffer, and a run that succeeds
    leaves in the builder the rows that the reads of the content it copied
    delivered, which are rows of that content in their order, and the new
    record and nothing else; and the builder is reset after each window,
    whether its loop ended in success or gave up, so that the next window
    starts, and the call ends, with an empty builder. *)
Theorem builder_reset_around_attempts rounds env path tmin tmax p rest err m w err' m' w'
    (Hret : forWindows rounds env path tmin tmax (p :: rest) err m w = Returns err' m' w') :
  metastoreBuilder m' = Some emptyBuilder /\
  (exists err1 m1 w1,
     retryLoop rounds env path tmin tmax p err
       (set_backoff m (Backoff_Reset (backoff m))) w = Returns err1 m1 w1 /\
     forWindows rounds env path tmin tmax rest err1 (set_builder m1 emptyBuilder) w1
       = Returns err' m' w') /\
  (forall m0 b1 b2 x1 x2 existing,
     fst <$> Update_func path tmin tmax (set_buf (set_builder m0 b1) x1) existing =
     fst <$> Update_func path tmin tmax (set_buf (set_builder m0 b2) x2) existing) /\
  (forall m0 existing replacement m1,
     Update_func path tmin tmax m0 existing = Some (Ok replacement, m1) ->
     exists copied,
       io_Copy existing = Ok copied /\
       deliveredOfBytes copied `sublist_of` rowsOfBytes copied /\
       builderRows <$> metastoreBuilder m1 =
         Some (deliveredOfBytes copied
                 ++ [rowOfStream (registrationStream path tmin tmax)])).
Proof.
  split; [|split; [|split]].
  - apply forWindows_frame in Hret as (_ & _ & _ & _ & Hb). by apply Hb.
  - cbn [forWindows] in Hret.
    destruct (retryLoop _ _ _ _ _ p err _ w) as [err1 m1 w1| |]; [|discriminate..].
    destruct (metastoreBuilder m1); [|discriminate]. by exists err1, m1, w1.
  - intros. apply Update_func_leftovers.
  - intros m0 existing replacement m1 Hrun.
    apply Update_func_ok in Hrun as (copied & replayed & Hcopy & Hrows & _ & -> & _).
    exists copied. split; [done|]. split; [apply deliveredOfBytes_sublist|].
    cbn [fmap option_fmap option_map].
    unfold builderRows in *. cbn [appended]. by rewrite map_app, Hrows.
Qed.

Lemma retryLoop_succeeds_at_once rounds env path tmin tmax name err m w m1 w1 :
  Backoff_Ongoing (backoff m) = true ->
  GetAndReplace (env (length (attempts w))) name (Update_func path tmin tmax) m w
    = Some (None, m1, w1) ->
  retryLoop (S rounds) env path tmin tmax name err m w
    = Returns None m1 (logAttempt w1 (name, None)).
Proof. intros Hongoing Hcall. cbn [retryLoop]. by rewrite Hongoing, Hcall. Qed.

Lemma retryLoop_fails_once rounds env path tmin tmax name err m w e m1 w1 :
  Backoff_Ongoing (backoff m) = true ->
  GetAndReplace (env (length (attempts w))) name (Update_func path tmin tmax) m w
    = Some (Some e, m1, w1) ->
  retryLoop (S rounds) env path tmin tmax name err m w
    = retryLoop rounds env path tmin tmax name (Some e)
        (set_backoff m1 (Backoff_Wait (backoff m1))) (logAttempt w1 (name, Some e)).
Proof. intros Hongoing Hcall. cbn [retryLoop]. by rewrite Hongoing, Hcall. Qed.

(** ** Loops that do not end *)

Lemma unbounded_Ongoing b :
  ctx_Err b = None -> MaxRetries (cfg b) = 0 -> Backoff_Ongoing b = true.
Proof. unfold Backoff_Ongoing. by intros -> ->. Qed.

Lemma replicate_snoc_cons {A} n (x : A) l : replicate n x ++ x :: l = x :: replicate n x ++ l.
Proof. induction n as [|n IH]; [done|]. simpl. by rewrite IH. Qed.

(** With a backoff that sets no bound, the loop for a window is still going
    round after any number of attempts once the caller's context is
    cancelled: each attempt fails with the cancellation error. *)
Lemma retryLoop_spins_cancelled rounds env path tmin tmax name :
  forall err m w,
    ctx_Err (backoff m) = None -> MaxRetries (cfg (backoff m)) = 0 ->
    (forall k, length (attempts w) <= k -> env k = Cancel) ->
    exists m' w',
      retryLoop rounds env path tmin tmax name err m w = Spins m' w' /\
      objects w' = objects w /\
      attempts w' = replicate rounds (name, Some context_Canceled) ++ attempts w.
Proof.
  induction rounds as [|rounds IH]; intros err m w Hctx Hmax Henv; cbn [retryLoop];
    rewrite unbounded_Ongoing by done.
  { by exists m, w. }
  unfold GetAndReplace. rewrite (Henv (length (attempts w))) by done.
  rewrite orb_true_r.
  edestruct (IH (Some context_Canceled) (set_backoff m (Backoff_Wait (backoff m))))
    as (m' & w' & -> & Hobjects & Hlog); [done..| |].
  { cbn [logAttempt attempts length]. intros k Hk. apply Henv. lia. }
  exists m', w'. split; [done|]. split; [done|].
  rewrite Hlog. cbn [logAttempt attempts replicate]. apply replicate_snoc_cons.
Qed.

(** The same when every read of the bucket fails. *)
Lemma retryLoop_spins_down rounds env path tmin tmax name e :
  forall err m w,
    ctx_Err (backoff m) = None -> MaxRetries (cfg (backoff m)) = 0 ->
    ctx_done w = false ->
    (forall k, env k = FetchFails e) ->
    exists m' w',
      retryLoop rounds env path tmin tmax name err m w = Spins m' w' /\
      objects w' = objects w /\
      attempts w' = replicate rounds (name, Some e) ++ attempts w.
Proof.
  induction rounds as [|rounds IH]; intros err m w Hctx Hmax Hdone Henv; cbn [retryLoop];
    rewrite unbounded_Ongoing by done.
  { by exists m, w. }
  unfold GetAndReplace. rewrite Henv, Hdone. cbn [orb].
  edestruct (IH (Some e) (set_backoff m (Backoff_Wait (backoff m))))
    as (m' & w' & -> & Hobjects & Hlog); [done..|].
  exists m', w'. split; [done|]. split; [done|].
  rewrite Hlog. cbn [logAttempt attempts replicate]. apply replicate_snoc_cons.
Qed.

(** The same when the window's object cannot be decoded. *)
Lemma retryLoop_spins_corrupt rounds env path tmin tmax name e :
  forall err m w,
    constructed m ->
    ctx_Err (backoff m) = None -> MaxRetries (cfg (backoff m)) = 0 ->
    ctx_done w = false ->
    (forall k, env k = Quiet) ->
    objects w !! name = Some (Garbage e) ->
    exists m' w',
      retryLoop rounds env path tmin tmax name err m w = Spins m' w' /\
      objects w' = objects w /\
      attempts w' =
        replicate rounds (name, Some (Wrap e "creating object from buffer")) ++ attempts w.
Proof.
  induction rounds as [|rounds IH]; intros err m w Hm Hctx Hmax Hdone Henv Hobject;
    cbn [retryLoop]; rewrite unbounded_Ongoing by done.
  { by exists m, w. }
  destruct Hm as [[stale Hb] [leftover Hbuf]].
  unfold GetAndReplace. rewrite Henv, Hdone. cbn [orb objects]. rewrite Hobject.
  unfold Update_func. rewrite Hbuf.
  cbn [fmap option_fmap option_map io_Copy read_err body_err content metastoreBuilder set_buf].
  rewrite Hb. cbn [replayExisting nonempty FromReaderAt overtake].
  edestruct (IH (Some (Wrap e "creating object from buffer")))
    as (m' & w' & -> & Hobjects & Hlog); [|done..| |].
  { split; by eexists. }
  { done. }
  exists m', w'. split; [done|]. split; [done|].
  rewrite Hlog. cbn [logAttempt attempts replicate]. apply replicate_snoc_cons.
Qed.

(** X14: with a backoff that does set a bound, the loop for a window whose
    every read fails makes the attempts the bound still allows, no more and no
    fewer, hands back the last error and leaves the bucket's objects as they
    were. *)
Lemma retryLoop_gives_up rounds env path tmin tmax name e :
  forall err m w,
    ctx_Err (backoff m) = None ->
    numRetries (backoff m) < MaxRetries (cfg (backoff m)) ->
    MaxRetries (cfg (backoff m)) - numRetries (backoff m) <= rounds ->
    ctx_done w = false ->
    (forall k, env k = FetchFails e) ->
    exists m' w',
      retryLoop rounds env path tmin tmax name err m w = Returns (Some e) m' w' /\
      objects w' = objects w /\
      attempts w' =
        replicate (MaxRetries (cfg (backoff m)) - numRetries (backoff m)) (name, Some e)
          ++ attempts w.
Proof.
  induction rounds as [|rounds IH]; intros err m w Hctx Hlt Hrounds Hdone Henv; [lia|].
  cbn [retryLoop].
  assert (Hongoing : Backoff_Ongoing (backoff m) = true).
  { unfold Backoff_Ongoing. rewrite Hctx. apply orb_true_iff. right.
    by apply Nat.ltb_lt. }
  rewrite Hongoing. unfold GetAndReplace. rewrite Henv, Hdone. cbn [orb].
  destruct (decide (S (numRetries (backoff m)) = MaxRetries (cfg (backoff m)))) as [Hlast|Hmore].
  - destruct rounds as [|rounds]; cbn [retryLoop];
      unfold Backoff_Ongoing; cbn [set_backoff backoff Backoff_Wait ctx_Err cfg numRetries];
      rewrite Hctx, <- Hlast, Nat.ltb_irrefl; cbn [Nat.eqb orb];
      eexists _, _; (split; [reflexivity|]); (split; [done|]);
      replace (S (numRetries (backoff m)) - numRetries (backoff m)) with 1 by lia;
      done.
  - edestruct (IH (Some e) (set_backoff m (Backoff_Wait (backoff m))))
      as (m' & w' & -> & Hobjects & Hlog); [done| | |done..|].
    { cbn [set_backoff backoff Backoff_Wait cfg numRetries]. lia. }
    { cbn [set_backoff backoff Backoff_Wait cfg numRetries]. lia. }
    exists m', w'. split; [done|]. split; [done|].
    rewrite Hlog. cbn [set_backoff backoff Backoff_Wait cfg numRetries logAttempt attempts].
    rewrite replicate_snoc_cons.
    replace (MaxRetries (cfg (backoff m)) - numRetries (backoff m))
      with (S (MaxRetries (cfg (backoff m)) - S (numRetries (backoff m)))) by lia.
    done.
Qed.

End Loops.

Section Initialisation.

Context `{Collaborators}.

(** ** An updater whose initialisation failed *)

Lemma GetAndReplace_unconstructed ev name path tmin tmax m w r m' w' :
  buf m = None ->
  GetAndReplace ev name (Update_func path tmin tmax) m w = Some (r, m', w') ->
  m' = m /\ exists e, r = Some e.
Proof.
  intros Hbuf. unfold GetAndReplace, Update_func. rewrite Hbuf.
  destruct (ctx_done w || _). { intros [= <- <- <-]. eauto. }
  destruct ev; try discriminate. intros [= <- <- <-]. eauto.
Qed.

Lemma retryLoop_unconstructed rounds env path tmin tmax name :
  forall err m w err' m' w',
    buf m = None -> metastoreBuilder m = None ->
    retryLoop rounds env path tmin tmax name err m w = Returns err' m' w' ->
    buf m' = None /\ metastoreBuilder m' = None.
Proof.
  induction rounds as [|rounds IH]; intros err m w err' m' w' Hbuf Hb; cbn [retryLoop];
    destruct (Backoff_Ongoing (backoff m)); try discriminate;
    try (by intros [= <- <- <-]).
  destruct (GetAndReplace _ _ _ m w) as [[[r m1] w1]|] eqn:Hcall; [|discriminate].
  apply GetAndReplace_unconstructed in Hcall as [-> [e ->]]; [|done].
  intros Hloop. by apply IH in Hloop.
Qed.

Lemma forWindows_unconstructed rounds env path tmin tmax paths err m w err' m' w' :
  buf m = None -> metastoreBuilder m = None ->
  forWindows rounds env path tmin tmax paths err m w = Returns err' m' w' ->
  paths = [] /\ m' = m.
Proof.
  intros Hbuf Hb. destruct paths as [|p paths]; cbn [forWindows].
  { by intros [= <- <- <-]. }
  destruct (retryLoop _ _ _ _ _ p err _ w) as [err1 m1 w1| |] eqn:Hloop; [|discriminate..].
  apply retryLoop_unconstructed in Hloop as [_ Hb1]; [|done..].
  by rewrite Hb1.
Qed.

(** C10: when the constructor of the builder fails on the first call of
    Update, that call returns the error; the one-time guard has fired all the
    same, with the builder and the buffer left nil.  From then on, for every
    call on that updater: initBuilder returns nil without constructing
    anything, Update goes on into its loop over the windows, a call that
    returns leaves the updater as unconstructed as it was, and an attempt
    that reaches the function given to GetAndReplace dereferences the nil
    buffer. *)
Theorem failed_init_is_not_retried tenant e
    (Hfail : logsobj_NewBuilder metastoreBuilderCfg = Fail e) :
  let m1 := snd (initBuilder (NewUpdater tenant)) in
  (forall rounds env w path tmin tmax,
     Update rounds env (NewUpdater tenant) w path tmin tmax = Returns (Some e) m1 w) /\
  unconstructed m1 /\
  (forall m, unconstructed m ->
     initBuilder m = (None, m) /\
     forall rounds env w path tmin tmax,
       Update rounds env m w path tmin tmax =
         forWindows rounds env path tmin tmax
           (iterStorePaths (tenantID m) tmin tmax) None m w /\
       (forall err m' w',
          Update rounds env m w path tmin tmax = Returns err m' w' -> m' = m) /\
       (ctx_Err (backoff m) = None -> ctx_done w = false ->
        env (length (attempts w)) = Quiet ->
        iterStorePaths (tenantID m) tmin tmax <> [] ->
        Update (S rounds) env m w path tmin tmax = Panics w)).
Proof.
  intros m1.
  assert (Hm1 : initBuilder (NewUpdater tenant) = (Some e, m1)).
  { unfold m1, initBuilder. cbn [NewUpdater builderOnce]. by rewrite Hfail. }
  split. { intros. unfold Update. by rewrite Hm1. }
  split. { unfold m1, initBuilder. cbn [NewUpdater builderOnce]. by rewrite Hfail. }
  clear m1 Hm1. intros m (Honce & Hb & Hbuf).
  assert (Hinit : initBuilder m = (None, m)) by (unfold initBuilder; by rewrite Honce).
  split; [done|]. intros rounds env w path tmin tmax. unfold Update. rewrite Hinit.
  split; [done|]. split.
  - intros err m' w' Hret. by apply forWindows_unconstructed in Hret as [_ ->].
  - intros Hctx Hdone Hev Hpaths.
    destruct (iterStorePaths _ _ _) as [|p rest]; [done|].
    cbn [forWindows retryLoop set_backoff backoff].
    rewrite Backoff_Reset_Ongoing by done.
    unfold GetAndReplace. cbn [attempts]. rewrite Hev, Hdone. cbn [orb].
    unfold Update_func. cbn [buf set_backoff]. by rewrite Hbuf.
Qed.

End Initialisation.

Section Planner.

Context `{Collaborators}.

(** ** The window planner *)

Lemma windowsFrom_elem count tenant : forall start w,
  w ∈ windowsFrom count tenant start <->
  exists i, i < count /\ w = (tenant, (start + Z.of_nat i * metastoreWindowSize)%Z).
Proof.
  induction count as [|count IH]; intros start w; cbn [windowsFrom].
  - split; [by intros ?%elem_of_nil|]. intros (i & Hi & _). lia.
  - rewrite elem_of_cons, IH. split.
    + intros [->|(i & Hi & ->)].
      * exists 0. split; [lia|]. f_equal. lia.
      * exists (S i). split; [lia|]. f_equal. lia.
    + intros ([|i] & Hi & ->).
      * left. f_equal. lia.
      * right. exists i. split; [lia|]. f_equal. lia.
Qed.

Lemma windowsFrom_sorted count tenant : forall start,
  (0 < metastoreWindowSize)%Z ->
  StronglySorted (fun a b : Window => (a.2 < b.2)%Z) (windowsFrom count tenant start).
Proof.
  induction count as [|count IH]; intros start Hsize; cbn [windowsFrom]; constructor.
  - by apply IH.
  - apply Forall_forall. intros w (i & _ & ->)%windowsFrom_elem. simpl. nia.
Qed.

Lemma sorted_NoDup (ws : list Window) :
  StronglySorted (fun a b : Window => (a.2 < b.2)%Z) ws -> NoDup ws.
Proof.
  induction 1 as [|w ws _ IH Hall]; constructor; [|done].
  intros Hin. rewrite Forall_forall in Hall. specialize (Hall _ Hin). lia.
Qed.

Lemma windowStart_bounds t :
  (0 < metastoreWindowSize)%Z ->
  (windowStart t <= t < windowStart t + metastoreWindowSize)%Z.
Proof.
  intros Hsize. unfold windowStart.
  assert (Hne : metastoreWindowSize <> 0%Z) by lia.
  pose proof (Z.div_mod t metastoreWindowSize Hne).
  pose proof (Z.mod_pos_bound t metastoreWindowSize Hsize). lia.
Qed.

Lemma iterStorePaths_unfold tenant tmin tmax :
  (0 < metastoreWindowSize)%Z -> (tmin <= tmax)%Z ->
  iterStorePaths tenant tmin tmax =
    windowsFrom (S (Z.to_nat (tmax / metastoreWindowSize - tmin / metastoreWindowSize)))
      tenant (windowStart tmin) /\
  (tmin / metastoreWindowSize <= tmax / metastoreWindowSize)%Z.
Proof.
  intros Hsize Hle.
  assert (Hq : (tmin / metastoreWindowSize <= tmax / metastoreWindowSize)%Z)
    by (by apply Z.div_le_mono).
  split; [|done]. unfold iterStorePaths, windowStart.
  destruct (Z.ltb_spec (tmax / metastoreWindowSize * metastoreWindowSize)
              (tmin / metastoreWindowSize * metastoreWindowSize)); [nia|].
  rewrite <- Z.mul_sub_distr_r, Z.div_mul by lia. done.
Qed.

(** C8: for a range with minTimestamp <= maxTimestamp (and a positive bucket
    size) the planner's windows all belong to the tenant, come in strictly
    ascending order of their start, hence without duplicates, contain the
    window of every instant of the range, both ends included, and contain no
    window other than that of some instant of the range; a range of a single
    instant gives exactly one window. *)
Theorem planner_covers_range tenant tmin tmax
    (Hsize : (0 < metastoreWindowSize)%Z) (Hle : (tmin <= tmax)%Z) :
  let ws := iterStorePaths tenant tmin tmax in
  StronglySorted (fun a b : Window => (a.2 < b.2)%Z) ws /\
  NoDup ws /\
  (forall t, (tmin <= t <= tmax)%Z -> (tenant, windowStart t) ∈ ws) /\
  (forall w, w ∈ ws -> exists t, (tmin <= t <= tmax)%Z /\ w = (tenant, windowStart t)) /\
  (tmin = tmax -> ws = [(tenant, windowStart tmin)]).
Proof.
  intros ws. subst ws.
  destruct (iterStorePaths_unfold tenant tmin tmax Hsize Hle) as [-> Hq].
  pose proof (windowsFrom_sorted
                (S (Z.to_nat (tmax / metastoreWindowSize - tmin / metastoreWindowSize)))
                tenant (windowStart tmin) Hsize) as Hsorted.
  split; [done|]. split; [by apply sorted_NoDup|]. split; [|split].
  - intros t [Hlo Hhi]. apply windowsFrom_elem.
    pose proof (Z.div_le_mono _ _ metastoreWindowSize Hsize Hlo).
    pose proof (Z.div_le_mono _ _ metastoreWindowSize Hsize Hhi).
    exists (Z.to_nat (t / metastoreWindowSize - tmin / metastoreWindowSize)).
    split; [lia|]. f_equal. unfold windowStart. rewrite Z2Nat.id by lia. lia.
  - intros w (i & Hi & ->)%windowsFrom_elem.
    pose proof (windowStart_bounds tmin Hsize) as Hmin.
    pose proof (windowStart_bounds tmax Hsize) as Hmax.
    destruct i as [|i].
    + exists tmin. split; [lia|]. f_equal. lia.
    + exists ((tmin / metastoreWindowSize + Z.of_nat (S i)) * metastoreWindowSize)%Z.
      unfold windowStart in *. split.
      * split; [nia|].
        transitivity (tmax / metastoreWindowSize * metastoreWindowSize)%Z; [|lia].
        apply Z.mul_le_mono_nonneg_r; lia.
      * f_equal. rewrite Z.div_mul by lia. lia.
  - intros <-. rewrite Z.sub_diag. done.
Qed.

End Planner.

Section Contention.

Context `{Collaborators}.

(** ** Two calls racing on one window *)

Lemma unbounded_or_fresh_Ongoing b :
  ctx_Err b = None -> numRetries b = 0 -> Backoff_Ongoing b = true.
Proof.
  unfold Backoff_Ongoing. intros -> ->. by destruct (MaxRetries (cfg b)).
Qed.

Lemma gave_up_bounded b :
  ctx_Err b = None -> Backoff_Ongoing b = false -> MaxRetries (cfg b) <> 0.
Proof.
  unfold Backoff_Ongoing. intros ->. by destruct (MaxRetries (cfg b)).
Qed.

Lemma call_invariant_retry r c0 s m e :
  cfg (backoff m) = c0 -> ctx_Err (backoff m) = None ->
  call_invariant r c0 s (retry m e).
Proof. by intros Hc Hx. Qed.

Lemma act_invariant r c0 a s c s' c' :
  call_invariant r c0 s c ->
  act r a s c = Some (s', c') ->
  call_invariant r c0 s' c' /\ (s' = s \/ grown s s').
Proof.
  intros (Hc & Hx & Hphase). unfold act.
  destruct (phase c) as [|existing token|err] eqn:Hp; [| |by destruct a].
  - destruct a as [| |e|]; try discriminate;
      destruct (Backoff_Ongoing (backoff (updater c))) eqn:Hongoing; try discriminate.
    + unfold leave. destruct (metastoreBuilder (updater c)); [|discriminate].
      cbn. intros [= <- <-]. split; [|by left].
      split; [done|]. split; [done|]. cbn [phase].
      destruct (err_var c) as [e|].
      * subst c0. by apply gave_up_bounded.
      * rewrite unbounded_or_fresh_Ongoing in Hongoing; [done..|by apply Hphase].
    + intros [= <- <-]. split; [|by left]. by repeat split.
    + intros [= <- <-]. split; [|by left]. by apply call_invariant_retry.
  - destruct a as [| | |body fault]; try discriminate.
    destruct (Update_func _ _ _ (updater c) _) as [[[replacement|e] m']|] eqn:Hrun;
      [| |discriminate].
    + pose proof (Update_func_frame _ _ _ _ _ _ _ Hrun) as (Hb & _).
      destruct fault as [e|].
      { intros [= <- <-]. split; [|by left]. apply call_invariant_retry; by rewrite Hb. }
      destruct (Nat.eqb_spec token (generation s)) as [Htok|Htok].
      2:{ intros [= <- <-]. split; [|by left]. apply call_invariant_retry; by rewrite Hb. }
      unfold leave. destruct (metastoreBuilder m'); [|discriminate].
      cbn. intros [= <- <-].
      apply Update_func_ok in Hrun as (copied & _ & Hcopy & _ & -> & _).
      destruct Hphase as [_ Hcur]. specialize (Hcur Htok). subst existing.
      assert (Hcopied : copied = default NoBytes (current s)).
      { destruct (current s) as [stored|]; cbn in Hcopy.
        - destruct body; [discriminate|]. by injection Hcopy as <-.
        - by injection Hcopy as <-. }
      assert (Hreadable : readableStore {| current := Some (reencoded copied
                 (registrationStream (reg_path r) (reg_min r) (reg_max r)));
                 generation := S (generation s) |}).
      { apply objectOf_readable. }
      assert (Hnew : rowOfStream (registrationStream (reg_path r) (reg_min r) (reg_max r))
                 ∈ rowsOfStore {| current := Some (reencoded copied
                     (registrationStream (reg_path r) (reg_min r) (reg_max r)));
                     generation := S (generation s) |}).
      { unfold rowsOfStore, reencoded. cbn [current]. rewrite objectOf_rows.
        apply elem_of_app. right. by left. }
      split.
      * split; [by rewrite <- Hc, <- Hb|]. split; [by rewrite <- Hx, <- Hb|]. by cbn [phase].
      * right. split; [done|]. split; [done|]. intros Hs. eexists.
        unfold rowsOfStore, reencoded. cbn [current]. rewrite objectOf_rows, Hcopied.
        unfold readableStore in Hs. rewrite readableBytes_delivered by done.
        by destruct (current s).
    + pose proof (Update_func_frame _ _ _ _ _ _ _ Hrun) as (Hb & _).
      intros [= <- <-]. split; [|by left]. apply call_invariant_retry; by rewrite Hb.
Qed.

(** The invariant of a call survives a replace made by the other call. *)
Lemma call_invariant_grown r c0 s s' c :
  call_invariant r c0 s c -> s' = s \/ grown s s' -> call_invariant r c0 s' c.
Proof.
  intros Hinv [->|(Hgen & Hreadable & Hrows)]; [done|].
  destruct Hinv as (Hc & Hx & Hphase). split; [done|]. split; [done|].
  destruct (phase c) as [|existing token|[e|]]; [done| |done|].
  - destruct Hphase as [Hle _]. split; lia.
  - destruct Hphase as [Hrow Hs]. split; [|done].
    destruct (Hrows Hs) as [row ->]. apply elem_of_app. by left.
Qed.

Lemma run_invariant r1 r2 c01 c02 schedule : forall s c1 c2 s' c1' c2',
  call_invariant r1 c01 s c1 -> call_invariant r2 c02 s c2 ->
  run r1 r2 schedule (s, c1, c2) = Some (s', c1', c2') ->
  call_invariant r1 c01 s' c1' /\ call_invariant r2 c02 s' c2'.
Proof.
  induction schedule as [|[who a] schedule IH]; intros s c1 c2 s' c1' c2' H1 H2; cbn [run].
  { by intros [= <- <- <-]. }
  unfold move. destruct who.
  - destruct (act r1 a s c1) as [[s1 c1x]|] eqn:Hact; [|discriminate]. cbn.
    apply act_invariant with (c0 := c01) in Hact as [H1' Hs]; [|done].
    apply IH; [done|]. by eapply call_invariant_grown.
  - destruct (act r2 a s c2) as [[s1 c2x]|] eqn:Hact; [|discriminate]. cbn.
    apply act_invariant with (c0 := c02) in Hact as [H2' Hs]; [|done].
    apply IH; [|done]. by eapply call_invariant_grown.
Qed.

Lemma call_invariant_start r s m :
  ctx_Err (backoff m) = None ->
  call_invariant r (cfg (backoff m)) s (startCall m).
Proof. by intros Hx. Qed.

(** C1: two calls of Update race on one window, each on an updater of its
    own with the backoff NewUpdater configures, the store accepting a replace
    only with the generation token that is still current and reporting a
    conflict otherwise.  Whatever the schedule, and whichever attempts fail,
    once both calls have returned both have returned nil and the window's
    object holds the registration of each. *)
Theorem both_registrations_survive r1 r2 m1 m2 s0 schedule s c1 c2 e1 e2
    (Hb1 : backoff m1 = backoff (NewUpdater (tenantID m1)))
    (Hb2 : backoff m2 = backoff (NewUpdater (tenantID m2)))
    (Hrun : run r1 r2 schedule (s0, startCall m1, startCall m2) = Some (s, c1, c2))
    (Hdone1 : phase c1 = Finished e1)
    (Hdone2 : phase c2 = Finished e2) :
  e1 = None /\ e2 = None /\
  rowOfStream (registrationStream (reg_path r1) (reg_min r1) (reg_max r1)) ∈ rowsOfStore s /\
  rowOfStream (registrationStream (reg_path r2) (reg_min r2) (reg_max r2)) ∈ rowsOfStore s.
Proof.
  eapply run_invariant in Hrun as [(Hc1 & _ & Hp1) (Hc2 & _ & Hp2)];
    [|apply call_invariant_start; by rewrite ?Hb1, ?Hb2..].
  rewrite Hdone1 in Hp1. rewrite Hdone2 in Hp2.
  rewrite Hb1 in Hp1. rewrite Hb2 in Hp2.
  destruct e1 as [e1|]; [done|]. destruct e2 as [e2|]; [done|].
  by destruct Hp1, Hp2.
Qed.

End Contention.

(** * Scenarios with an hourly bucket size *)

Lemma hourly_initBuilder tenant :
  @initBuilder hourly (NewUpdater tenant) = (None, readyUpdater tenant 0).
Proof. reflexivity. Qed.

(** C4, on the code: a window whose every attempt fails.  The updater
    NewUpdater builds has a backoff without MaxRetries, tied to
    context.TODO(); the loop for the window is still going round after any
    number of attempts, each logged as a failure, and Update does not return. *)
Theorem Update_never_gives_up rounds :
  exists m' w',
    @Update hourly rounds storeDown (NewUpdater "t1") emptyWorld
      "obj-1" (10 * Minute)%Z (45 * Minute)%Z = Spins m' w' /\
    objects w' = ∅ /\
    attempts w' = replicate rounds (("t1", 0%Z), Some (Err "bucket unavailable")).
Proof.
  unfold Update. rewrite hourly_initBuilder.
  change (@iterStorePaths hourly _ _ _) with [("t1", 0%Z)].
  cbn [forWindows].
  edestruct (@retryLoop_spins_down hourly rounds storeDown)
    as (m' & w' & -> & Hobjects & Hlog); [done..|].
  exists m', w'. rewrite Hobjects, Hlog. by rewrite app_nil_r.
Qed.

(** C5, on the code: a range over two windows; the first window is updated,
    the first attempt on the second fails, and the context is cancelled while
    Update waits to retry.  The first window keeps its update; the loop for
    the second window does not stop: the backoff is tied to context.TODO(),
    not to the caller's context, so every further attempt is made, fails with
    the cancellation error and is followed by another, and Update does not
    return. *)
Theorem Update_retries_after_cancel rounds :
  exists m' w',
    @Update hourly (S rounds) cancelledMidRetry (NewUpdater "t1") emptyWorld
      "obj-2" (50 * Minute)%Z (80 * Minute)%Z = Spins m' w' /\
    rowsOfBytes <$> objects w' !! window0 =
      Some [rowOfStream (@registrationStream hourly "obj-2" (50 * Minute)%Z (80 * Minute)%Z)] /\
    objects w' !! window1 = None /\
    attempts w' =
      replicate rounds (window1, Some context_Canceled)
        ++ [ (window1, Some (Err "bucket unavailable")); (window0, None) ].
Proof.
  unfold Update. rewrite hourly_initBuilder.
  change (@iterStorePaths hourly _ _ _) with [window0; window1].
  cbn [forWindows].
  erewrite retryLoop_succeeds_at_once; [|done|vm_compute; reflexivity].
  cbn [metastoreBuilder].
  erewrite retryLoop_fails_once; [|done|vm_compute; reflexivity].
  edestruct (@retryLoop_spins_cancelled hourly rounds cancelledMidRetry)
    as (m' & w' & -> & Hobjects & Hlog); [done..| |].
  { cbn [logAttempt attempts length]. intros [|[|k]] Hk; [lia..|done]. }
  exists m', w'. rewrite Hobjects, Hlog. done.
Qed.

(** C2, on the code: the object of a window holds two registrations, and
    the read after the first row returns no rows and a decode error.  The
    loop of readFromExisting tests the count before the error, takes the read
    for the end of the section and reports nothing; the attempt succeeds,
    Update returns nil, and the object written holds the first registration
    and the new one: two records, not three, the second registration lost. *)
Theorem Update_loses_undelivered_records :
  storedRows tornWorld window0 =
    [ rowOfStream (@registrationStream hourly "obj-1" (10 * Minute)%Z (45 * Minute)%Z);
      rowOfStream (@registrationStream hourly "obj-2" (50 * Minute)%Z (55 * Minute)%Z) ] /\
  exists m' w',
    @Update hourly 1 (fun _ => Quiet) (NewUpdater "t1") tornWorld
      "obj-3" (20 * Minute)%Z (30 * Minute)%Z = Returns None m' w' /\
    attempts w' = [ (window0, None) ] /\
    storedRows w' window0 =
      [ rowOfStream (@registrationStream hourly "obj-1" (10 * Minute)%Z (45 * Minute)%Z);
        rowOfStream (@registrationStream hourly "obj-3" (20 * Minute)%Z (30 * Minute)%Z) ].
Proof.
  split; [vm_compute; reflexivity|].
  eexists _, _. split; [vm_compute; reflexivity|]. split; vm_compute; reflexivity.
Qed.

(** C3, on the code: a range over two windows, the object of the first of
    which cannot be decoded.  With the backoff NewUpdater configures the loop
    for the first window is still going round after any number of attempts,
    each failing with the decode error: Update does not return that error,
    and the second window, which a call for it alone updates at once, is
    never attempted. *)
Theorem Update_stuck_at_failing_window rounds :
  (exists m' w',
     @Update hourly rounds (fun _ => Quiet) (NewUpdater "t1") corruptWorld
       "obj-2" (50 * Minute)%Z (80 * Minute)%Z = Spins m' w' /\
     attempts w' =
       replicate rounds
         (window0, Some (Wrap (Err "invalid magic") "creating object from buffer")) /\
     objects w' !! window1 = None) /\
  (exists m' w',
     @Update hourly 1 (fun _ => Quiet) (NewUpdater "t1") corruptWorld
       "obj-2" (70 * Minute)%Z (80 * Minute)%Z = Returns None m' w' /\
     attempts w' = [ (window1, None) ]).
Proof.
  split.
  - unfold Update. rewrite hourly_initBuilder.
    change (@iterStorePaths hourly _ _ _) with [window0; window1].
    cbn [forWindows].
    edestruct (@retryLoop_spins_corrupt hourly rounds (fun _ => Quiet))
      as (m' & w' & -> & Hobjects & Hlog); [split; by eexists|done..| |].
    { reflexivity. }
    exists m', w'. rewrite Hobjects, Hlog. by rewrite app_nil_r.
  - eexists _, _. split; vm_compute; reflexivity.
Qed.

Lemma both_registrations_survive_witness :
  exists s c1 c2,
    @run hourly obj1 obj2 loserRetries
      (noObject, startCall (readyUpdater "t1" 0), startCall (readyUpdater "t1" 0))
    = Some (s, c1, c2) /\
    rowOfStream (@registrationStream hourly "obj-1" (10 * Minute)%Z (45 * Minute)%Z)
      ∈ rowsOfStore s /\
    rowOfStream (@registrationStream hourly "obj-2" (50 * Minute)%Z (55 * Minute)%Z)
      ∈ rowsOfStore s.
Proof.
  eexists _, _, _. split; [vm_compute; reflexivity|].
  eapply proj2, proj2,
    (@both_registrations_survive hourly obj1 obj2
       (readyUpdater "t1" 0) (readyUpdater "t1" 0) noObject loserRetries);
    vm_compute; reflexivity.
Defined.

Lemma builder_reset_around_attempts_witness :
  @forWindows hourly 3 (downAtFirst 1) "obj-2" (50 * Minute)%Z (80 * Minute)%Z
    [window0; window1] None (readyUpdater "t1" 0) emptyWorld
  = Returns None (updaterOf retriedRun) (worldOf retriedRun) /\
  metastoreBuilder (updaterOf retriedRun) = Some emptyBuilder.
Proof.
  split; [vm_compute; reflexivity|].
  eapply proj1,
    (@builder_reset_around_attempts hourly 3 (downAtFirst 1) "obj-2"
       (50 * Minute)%Z (80 * Minute)%Z window0 [window1] None (readyUpdater "t1" 0)
       emptyWorld None (updaterOf retriedRun) (worldOf retriedRun)).
  vm_compute. reflexivity.
Defined.

Lemma encoded_record_is_fixed_witness :
  exists replacement m',
    @Update_func hourly "obj-1" (10 * Minute)%Z (45 * Minute)%Z (readyUpdater "t1" 0) None
    = Some (Ok replacement, m') /\
    last (rowsOfBytes replacement) =
      Some {| stream_Labels_String :=
                "__start__=600000000000;__end__=2700000000000;__path__=obj-1;" |}.
Proof.
  eexists _, _. split; [vm_compute; reflexivity|].
  eapply proj2, proj2,
    (@encoded_record_is_fixed hourly "obj-1" (10 * Minute)%Z (45 * Minute)%Z
       (readyUpdater "t1" 0) None).
  vm_compute. reflexivity.
Defined.

Lemma planner_covers_range_witness :
  (0 < @metastoreWindowSize hourly)%Z /\ (50 * Minute <= 80 * Minute)%Z /\
  NoDup (@iterStorePaths hourly "t1" (50 * Minute)%Z (80 * Minute)%Z).
Proof.
  split; [reflexivity|]. split; [discriminate|].
  eapply proj1, proj2,
    (@planner_covers_range hourly "t1" (50 * Minute)%Z (80 * Minute)%Z);
    [reflexivity|discriminate].
Defined.

Lemma retry_recomputes_from_fresh_read_witness :
  overtakenRun = Returns None (updaterOf overtakenRun) (worldOf overtakenRun) /\
  storedRows (worldOf overtakenRun) window0 =
    [ rowOfStream (@registrationStream hourly "obj-1" (10 * Minute)%Z (45 * Minute)%Z);
      rowOfStream (@registrationStream hourly "obj-2" (50 * Minute)%Z (80 * Minute)%Z) ] /\
  exists failed,
    attempts (worldOf overtakenRun) = (window0, None) :: failed ++ attempts emptyWorld /\
    Forall (fun line : Window * option error => line.1 = window0 /\ is_Some line.2) failed /\
    let found :=
      interfered (overtakenOnce (Encoded afterObj1)) window0
        (length (attempts emptyWorld)) (length failed) (objects emptyWorld) in
    objects (worldOf overtakenRun) =
      <[window0 := reencoded (default NoBytes (found !! window0))
                     (@registrationStream hourly "obj-2" (50 * Minute)%Z (80 * Minute)%Z)]>
        found.
Proof.
  assert (Hrun : overtakenRun = Returns None (updaterOf overtakenRun) (worldOf overtakenRun))
    by (vm_compute; reflexivity).
  split; [exact Hrun|]. split; [vm_compute; reflexivity|].
  pose proof (@retry_recomputes_from_fresh_read hourly 2 (overtakenOnce (Encoded afterObj1))
                "obj-2" (50 * Minute)%Z (80 * Minute)%Z window0 None (readyUpdater "t1" 0)
                emptyWorld eq_refl) as Hloop.
  fold overtakenRun in Hloop. rewrite Hrun in Hloop. exact Hloop.
Defined.

Lemma failed_init_is_not_retried_witness :
  @logsobj_NewBuilder brokenBuilder metastoreBuilderCfg = Fail (Err "invalid builder config") /\
  @unconstructed (snd (@initBuilder brokenBuilder (NewUpdater "t1"))).
Proof.
  split; [reflexivity|].
  eapply proj1, proj2,
    (@failed_init_is_not_retried brokenBuilder "t1" (Err "invalid builder config")).
  reflexivity.
Defined.

(** * Further properties of the code *)

Section Replayer.

Context `{Collaborators}.

(** ** readFromExisting *)

(** X1: on an object every section of which can be read, replaying in
    batches of 100, section by section, is appending the object's rows one by
    one: the same rows reach the builder in the same order, and if the builder
    refuses one the replay stops there with the same error. *)
Theorem readFromExisting_is_appendStreams sections b
    (Hreadable : forallb readableSection sections = true) :
  readFromExisting sections b = appendStreams (rowsOf sections) b.
Proof.
  revert b. induction sections as [|section sections IH]; intros b; [done|].
  cbn [forallb] in Hreadable. apply andb_prop in Hreadable as [Hsection Hrest].
  destruct section as [runs|e|]; cbn [readFromExisting rowsOf].
  - cbn [readableSection] in Hsection.
    rewrite readRows_appendStreams, appendStreams_app by done.
    destruct (appendStreams (rowsOfRuns runs) b) as [[e|] b']; [done|]. by apply IH.
  - discriminate.
  - by apply IH.
Qed.

(** X2: however the replay ends (success, a section that does not open, a
    read that reports an error, a read that returns no rows, a refused
    append), what readFromExisting has appended to the builder is made of
    rows of the object in their order: the first of the rows that the reads
    deliver.  It appends no row twice, none out of order and none the object
    does not hold; it may leave out rows that the reads did not deliver. *)
Theorem readFromExisting_appends_in_order sections b :
  exists done_,
    done_ `prefix_of` deliveredOf sections /\
    done_ `sublist_of` rowsOf sections /\
    builderRows (readFromExisting sections b).2 = builderRows b ++ done_.
Proof.
  enough (exists done_, done_ `prefix_of` deliveredOf sections /\
            builderRows (readFromExisting sections b).2 = builderRows b ++ done_)
    as (done_ & Hprefix & Hrows).
  { exists done_. split; [done|]. split; [|done].
    etrans; [by apply prefix_is_sublist|]. apply deliveredOf_sublist. }
  revert b. induction sections as [|section sections IH]; intros b.
  { exists []. by rewrite app_nil_r. }
  destruct section as [runs|e|]; cbn [readFromExisting deliveredOf].
  - destruct (readRows_prefix (length (rowsOfRuns runs)) runs b) as (done_ & Hprefix & Hrows).
    destruct (readRows _ _ b) as [[e|] b'] eqn:Hread; cbn [snd] in *.
    + exists done_. split; [|done]. by apply prefix_app_r.
    + apply readRows_rows in Hread; [|done].
      destruct (IH b') as (more & Hmore & Hrows').
      exists (deliveredOfRuns runs ++ more). split; [by apply prefix_app|].
      by rewrite Hrows', Hread, <- app_assoc.
  - exists []. split; [apply prefix_nil|by rewrite app_nil_r].
  - apply IH.
Qed.

Lemma appendStreams_accepted batch : forall b,
  (forall b' s, Append_check b' s = None) -> (appendStreams batch b).1 = None.
Proof.
  induction batch as [|stream batch IH]; intros b Haccept; [done|].
  cbn [appendStreams]. unfold Builder_Append. rewrite Haccept. by apply IH.
Qed.

Lemma readFromExisting_accepted sections : forall b,
  forallb readableSection sections = true ->
  (forall b' s, Append_check b' s = None) ->
  (readFromExisting sections b).1 = None.
Proof.
  induction sections as [|section sections IH]; intros b Hreadable Haccept; [done|].
  cbn [forallb] in Hreadable. apply andb_prop in Hreadable as [Hsection Hrest].
  destruct section as [runs|e|]; cbn [readFromExisting]; [|done|by apply IH].
  cbn [readableSection] in Hsection.
  rewrite readRows_appendStreams by done.
  pose proof (appendStreams_accepted (rowsOfRuns runs) b Haccept) as Hrows.
  destruct (appendStreams (rowsOfRuns runs) b) as [[e|] b']; [done|]. by apply IH.
Qed.

Lemma Update_func_returns_Ok path tmin tmax m existing copied :
  constructed m ->
  io_Copy existing = Ok copied ->
  readableBytes copied = true ->
  (forall b s, Append_check b s = None) ->
  (forall b, Flush_check b = None) ->
  exists replacement m',
    Update_func path tmin tmax m existing = Some (Ok replacement, m').
Proof.
  intros [[stale Hb] [leftover Hbuf]] Hcopy Hreadable Haccept Hflush.
  unfold Update_func. rewrite Hbuf, Hcopy. cbn [metastoreBuilder set_buf]. rewrite Hb.
  assert ((replayExisting copied (Builder_Reset stale)).1 = None) as Hreplay.
  { unfold replayExisting. destruct copied as [|sections|e]; [done| |done].
    cbn [nonempty FromReaderAt]. cbn [readableBytes] in Hreadable.
    pose proof (readFromExisting_accepted sections (Builder_Reset stale) Hreadable Haccept).
    by destruct (readFromExisting _ _) as [[e|] b]. }
  destruct (replayExisting copied _) as [[e|] b]; [done|].
  unfold Builder_Append, Builder_Flush. rewrite Haccept, Hflush. by eexists _, _.
Qed.

(** X3: when the updater's builder and buffer exist, the content handed to
    the function can be read (absent, empty, or an object all of whose
    sections can be read) and the builder refuses neither a record nor the
    flush, the function succeeds, and what it returns is the rows of that
    content followed by the new registration. *)
Theorem Update_func_succeeds path tmin tmax m existing copied
    (Hm : constructed m)
    (Hcopy : io_Copy existing = Ok copied)
    (Hreadable : readableBytes copied = true)
    (Haccept : forall b s, Append_check b s = None)
    (Hflush : forall b, Flush_check b = None) :
  exists m',
    Update_func path tmin tmax m existing
      = Some (Ok (merged copied (registrationStream path tmin tmax)), m') /\
    constructed m'.
Proof.
  destruct (Update_func_returns_Ok path tmin tmax m existing copied)
    as (replacement & m' & Hrun); [done..|].
  exists m'. pose proof Hrun as Hok.
  apply Update_func_ok in Hok as (copied' & replayed & Hcopy' & _ & -> & Hb' & Hbuf').
  rewrite Hcopy in Hcopy'. injection Hcopy' as <-.
  rewrite readableBytes_reencoded in * by done.
  split; [done|]. split; by eexists.
Qed.

(** X15: what an attempt that succeeds submits, whatever the content it
    copied.  The object holds the rows that the reads of that content
    delivered, which are rows of that content in their order, followed by the
    new registration; it has at most one record more than the content, and
    exactly one more precisely when the reads delivered every row; and it is
    an object that the replayer gets through. *)
Theorem Update_func_submits_delivered path tmin tmax m existing replacement m'
    (Hrun : Update_func path tmin tmax m existing = Some (Ok replacement, m')) :
  exists copied,
    io_Copy existing = Ok copied /\
    rowsOfBytes replacement =
      deliveredOfBytes copied ++ [rowOfStream (registrationStream path tmin tmax)] /\
    deliveredOfBytes copied `sublist_of` rowsOfBytes copied /\
    length (rowsOfBytes replacement) <= S (length (rowsOfBytes copied)) /\
    (length (rowsOfBytes replacement) = S (length (rowsOfBytes copied)) <->
     deliveredOfBytes copied = rowsOfBytes copied) /\
    readableBytes replacement = true.
Proof.
  apply Update_func_ok in Hrun as (copied & _ & Hcopy & _ & -> & _).
  exists copied. pose proof (deliveredOfBytes_sublist copied) as Hsub.
  pose proof (sublist_length _ _ Hsub) as Hlen.
  unfold reencoded. rewrite objectOf_rows, length_app. cbn [length].
  split; [done|]. split; [done|]. split; [done|]. split; [lia|].
  split; [|apply objectOf_readable]. split.
  - intros Hsame. apply sublist_same_length; [done|lia].
  - intros ->. lia.
Qed.

End Replayer.

Section Runs.

Context `{Collaborators}.

(** ** Update never dereferences a nil builder or buffer it has constructed *)

Lemma Update_func_constructed path tmin tmax m existing :
  constructed m ->
  exists r m', Update_func path tmin tmax m existing = Some (r, m') /\ constructed m'.
Proof.
  intros [[stale Hb] [leftover Hbuf]]. unfold Update_func. rewrite Hbuf.
  destruct (io_Copy existing) as [copied|e].
  2:{ eexists _, _. split; [done|]. split; [cbn; by rewrite Hb|done]. }
  cbn [metastoreBuilder set_buf]. rewrite Hb.
  destruct (replayExisting copied _) as [[e|] b]; [by eexists _, _|].
  destruct (Builder_Append b _) as [[e|] b']; [by eexists _, _|].
  destruct (Builder_Flush b'); by eexists _, _.
Qed.

Lemma GetAndReplace_constructed ev name path tmin tmax m w :
  constructed m ->
  exists r m' w',
    GetAndReplace ev name (Update_func path tmin tmax) m w = Some (r, m', w') /\
    constructed m'.
Proof.
  intros Hm. unfold GetAndReplace.
  destruct (ctx_done w || _); [by eexists _, _, _|].
  destruct (Update_func_constructed path tmin tmax m
              ((fun b => {| content := b; read_err := body_err ev |}) <$> objects w !! name) Hm)
    as (r & m' & Hrun & Hm').
  cbn [objects]. rewrite Hrun.
  destruct ev; try (by eexists _, _, _); destruct r; by eexists _, _, _.
Qed.

Lemma retryLoop_constructed rounds env path tmin tmax name : forall err m w,
  constructed m ->
  match retryLoop rounds env path tmin tmax name err m w with
  | Panics _ => False
  | Returns _ m' _ | Spins m' _ => constructed m'
  end.
Proof.
  induction rounds as [|rounds IH]; intros err m w Hm; cbn [retryLoop];
    destruct (Backoff_Ongoing (backoff m)); try done.
  destruct (GetAndReplace_constructed (env (length (attempts w))) name path tmin tmax m w Hm)
    as (r & m' & w' & -> & Hm').
  destruct r as [e|]; [|done]. by apply IH.
Qed.

Lemma forWindows_constructed rounds env path tmin tmax paths : forall err m w,
  constructed m ->
  match forWindows rounds env path tmin tmax paths err m w with
  | Panics _ => False
  | Returns _ m' _ | Spins m' _ => constructed m'
  end.
Proof.
  induction paths as [|p paths IH]; intros err m w Hm; cbn [forWindows]; [done|].
  pose proof (retryLoop_constructed rounds env path tmin tmax p err
                (set_backoff m (Backoff_Reset (backoff m))) w Hm) as Hloop.
  destruct (retryLoop _ _ _ _ _ p err _ w) as [err1 m1 w1| |]; [|done..].
  destruct Hloop as [[b Hb] Hbuf]. rewrite Hb. apply IH. split; [by eexists|done].
Qed.

Lemma initBuilder_cases m :
  builderOnce m = false \/ constructed m ->
  backoff (initBuilder m).2 = backoff m /\
  tenantID (initBuilder m).2 = tenantID m /\
  ((initBuilder m).1 = None -> constructed (initBuilder m).2).
Proof.
  intros Hm. unfold initBuilder. destruct (builderOnce m) eqn:Honce.
  - destruct Hm as [|Hm]; [discriminate|]. cbn. by split; [|split].
  - destruct (logsobj_NewBuilder metastoreBuilderCfg); cbn; repeat split; try done;
      by eexists.
Qed.

(** X5: Update does not panic on an updater that is fresh (its
    initialisation has not run) or whose builder and buffer exist: whatever
    the bucket does, the call returns or is still retrying, and the updater it
    leaves has its builder and buffer unless the initialisation failed. *)
Theorem Update_does_not_panic rounds env m w path tmin tmax
    (Hm : builderOnce m = false \/ constructed m) :
  match Update rounds env m w path tmin tmax with
  | Panics _ => False
  | Returns err m' _ => constructed m' \/ err = (initBuilder m).1 /\ err <> None
  | Spins m' _ => constructed m'
  end.
Proof.
  destruct (initBuilder_cases m Hm) as (_ & _ & Hinit). unfold Update.
  destruct (initBuilder m) as [[e|] m0]; cbn [fst snd] in *; [by right|].
  pose proof (forWindows_constructed rounds env path tmin tmax
                (iterStorePaths (tenantID m0) tmin tmax) None m0 w (Hinit eq_refl)).
  destruct (forWindows _ _ _ _ _ _ _ _ _); [by left|done..].
Qed.

(** ** With a retry bound, Update returns *)

Lemma retryLoop_bounded rounds env path tmin tmax name : forall err m w,
  constructed m ->
  0 < MaxRetries (cfg (backoff m)) ->
  MaxRetries (cfg (backoff m)) - numRetries (backoff m) <= rounds ->
  exists err' m' w' new,
    retryLoop rounds env path tmin tmax name err m w = Returns err' m' w' /\
    constructed m' /\ cfg (backoff m') = cfg (backoff m) /\
    attempts w' = new ++ attempts w /\
    length new <= MaxRetries (cfg (backoff m)) - numRetries (backoff m).
Proof.
  induction rounds as [|rounds IH]; intros err m w Hm Hbound Hrounds; cbn [retryLoop];
    destruct (Backoff_Ongoing (backoff m)) eqn:Hongoing;
    try (exists err, m, w, []; split; [done|]; split; [done|]; split; [done|];
         split; [done|]; simpl; lia).
  { unfold Backoff_Ongoing in Hongoing. destruct (ctx_Err (backoff m)); [done|].
    apply orb_true_iff in Hongoing as [?%Nat.eqb_eq|?%Nat.ltb_lt]; lia. }
  assert (Hlt : numRetries (backoff m) < MaxRetries (cfg (backoff m))).
  { unfold Backoff_Ongoing in Hongoing. destruct (ctx_Err (backoff m)); [done|].
    apply orb_true_iff in Hongoing as [?%Nat.eqb_eq|?%Nat.ltb_lt]; lia. }
  destruct (GetAndReplace_constructed (env (length (attempts w))) name path tmin tmax m w Hm)
    as (r & m1 & w1 & Hcall & Hm1).
  rewrite Hcall.
  pose proof (GetAndReplace_frame _ _ _ _ _ _ _ _ _ _ Hcall) as (Hb & _).
  destruct r as [e|].
  - apply GetAndReplace_failure in Hcall as [Hlog _].
    destruct (IH (Some e) (set_backoff m1 (Backoff_Wait (backoff m1)))
                (logAttempt w1 (name, Some e)))
      as (err' & m' & w' & new & -> & Hm' & Hcfg & Hnew & Hlen).
    { done. }
    { cbn [set_backoff backoff Backoff_Wait cfg]. by rewrite Hb. }
    { cbn [set_backoff backoff Backoff_Wait cfg numRetries]. rewrite Hb. lia. }
    exists err', m', w', (new ++ [(name, Some e)]).
    cbn [set_backoff backoff Backoff_Wait cfg numRetries logAttempt attempts] in *.
    rewrite Hb in *. split; [done|]. split; [done|]. split; [done|]. split.
    + by rewrite Hnew, Hlog, <- app_assoc.
    + rewrite length_app. simpl. lia.
  - apply GetAndReplace_success in Hcall as (_ & Hlog & _).
    exists None, m1, (logAttempt w1 (name, None)), [(name, None)].
    rewrite Hb. cbn [logAttempt attempts]. rewrite Hlog.
    split; [done|]. split; [done|]. split; [done|]. split; [done|]. simpl. lia.
Qed.

Lemma forWindows_bounded rounds env path tmin tmax paths : forall err m w,
  constructed m ->
  0 < MaxRetries (cfg (backoff m)) ->
  MaxRetries (cfg (backoff m)) <= rounds ->
  exists err' m' w' new,
    forWindows rounds env path tmin tmax paths err m w = Returns err' m' w' /\
    attempts w' = new ++ attempts w /\
    length new <= MaxRetries (cfg (backoff m)) * length paths.
Proof.
  induction paths as [|p paths IH]; intros err m w Hm Hbound Hrounds; cbn [forWindows].
  { exists err, m, w, []. split; [done|]. split; [done|]. simpl. lia. }
  destruct (retryLoop_bounded rounds env path tmin tmax p err
              (set_backoff m (Backoff_Reset (backoff m))) w)
    as (err1 & m1 & w1 & new1 & -> & [[b Hb] Hbuf] & Hcfg & Hnew1 & Hlen1); [done..| |].
  { cbn [set_backoff backoff Backoff_Reset cfg numRetries]. lia. }
  cbn [set_backoff backoff Backoff_Reset cfg numRetries] in *. rewrite Hb.
  destruct (IH err1 (set_builder m1 (Builder_Reset b)) w1)
    as (err' & m' & w' & new & -> & Hnew & Hlen).
  { split; [by eexists|done]. }
  { cbn [set_builder backoff]. by rewrite Hcfg. }
  { cbn [set_builder backoff]. by rewrite Hcfg. }
  cbn [set_builder backoff] in Hlen. rewrite Hcfg in Hlen.
  exists err', m', w', (new ++ new1). split; [done|]. split.
  - by rewrite Hnew, Hnew1, <- app_assoc.
  - rewrite length_app. cbn [length]. lia.
Qed.

(** X6: when the backoff of the updater has a retry bound, Update returns,
    whatever the bucket does, once it is given that many rounds per window,
    and it has made no more attempts than the bound allows for each window of
    the range. *)
Theorem Update_returns_when_bounded rounds env m w path tmin tmax
    (Hm : builderOnce m = false \/ constructed m)
    (Hbound : 0 < MaxRetries (cfg (backoff m)))
    (Hrounds : MaxRetries (cfg (backoff m)) <= rounds) :
  exists err m' w' new,
    Update rounds env m w path tmin tmax = Returns err m' w' /\
    attempts w' = new ++ attempts w /\
    length new <=
      MaxRetries (cfg (backoff m)) * length (iterStorePaths (tenantID m) tmin tmax).
Proof.
  destruct (initBuilder_cases m Hm) as (Hb & Ht & Hinit). unfold Update.
  destruct (initBuilder m) as [[e|] m0]; cbn [fst snd] in *.
  { exists (Some e), m0, w, []. split; [done|]. split; [done|]. simpl. lia. }
  rewrite Ht, <- Hb. apply forWindows_bounded; [by apply Hinit|by rewrite Hb..].
Qed.

(** ** What Update leaves alone, and what it only adds to *)

Lemma GetAndReplace_elsewhere ev name f m w r m' w' other :
  GetAndReplace ev name f m w = Some (r, m', w') ->
  other <> name ->
  objects w' !! other = objects w !! other.
Proof.
  unfold GetAndReplace. intros Hcall Hother.
  destruct (ctx_done w || _); [by injection Hcall as _ _ <-|].
  destruct (f m _) as [[[replacement|e] m1]|];
    destruct ev; try discriminate; injection Hcall as _ _ <-; try done;
    cbn [put overtake objects]; by rewrite lookup_insert_ne.
Qed.

Lemma retryLoop_elsewhere rounds env path tmin tmax name other : forall err m w,
  other <> name ->
  objects (worldOf (retryLoop rounds env path tmin tmax name err m w)) !! other
    = objects w !! other.
Proof.
  induction rounds as [|rounds IH]; intros err m w Hother; cbn [retryLoop];
    destruct (Backoff_Ongoing (backoff m)); try done.
  destruct (GetAndReplace _ _ _ m w) as [[[[e|] m1] w1]|] eqn:Hcall; [| |done].
  - rewrite IH by done. cbn [logAttempt objects]. by eapply GetAndReplace_elsewhere.
  - cbn [worldOf logAttempt objects]. by eapply GetAndReplace_elsewhere.
Qed.

Lemma forWindows_elsewhere rounds env path tmin tmax paths other : forall err m w,
  other ∉ paths ->
  objects (worldOf (forWindows rounds env path tmin tmax paths err m w)) !! other
    = objects w !! other.
Proof.
  induction paths as [|p paths IH]; intros err m w Hother; cbn [forWindows]; [done|].
  apply not_elem_of_cons in Hother as [Hp Hrest].
  pose proof (retryLoop_elsewhere rounds env path tmin tmax p other err
                (set_backoff m (Backoff_Reset (backoff m))) w Hp) as Hloop.
  destruct (retryLoop _ _ _ _ _ p err _ w) as [err1 m1 w1| |]; [|done..].
  cbn [worldOf] in Hloop. destruct (metastoreBuilder m1); [|done].
  by rewrite IH.
Qed.

Lemma iterStorePaths_tenant tenant tmin tmax name :
  name ∈ iterStorePaths tenant tmin tmax -> name.1 = tenant.
Proof.
  unfold iterStorePaths. destruct (_ <? _)%Z; [by intros ?%elem_of_nil|].
  by intros (i & _ & ->)%windowsFrom_elem.
Qed.

(** X7: Update reads and writes the windows of its range and no other
    object of the bucket: an object at any other path, in particular any
    object of another tenant, is after the call, however it ends, what it
    was before. *)
Theorem Update_touches_only_its_windows rounds env m w path tmin tmax other
    (Hother : other ∉ iterStorePaths (tenantID m) tmin tmax \/ other.1 <> tenantID m) :
  objects (worldOf (Update rounds env m w path tmin tmax)) !! other = objects w !! other.
Proof.
  assert (Hout : other ∉ iterStorePaths (tenantID m) tmin tmax).
  { destruct Hother as [|Hne]; [done|]. by intros ?%iterStorePaths_tenant. }
  unfold Update. destruct (initBuilder m) as [[e|] m0] eqn:Hinit; [done|].
  apply initBuilder_frame in Hinit as [_ Ht]. rewrite Ht. by apply forWindows_elsewhere.
Qed.

Lemma GetAndReplace_append_only ev name path tmin tmax m w r m' w' p :
  is_Overtaken ev = false ->
  deliveredOfBytes (default NoBytes (objects w !! p)) = storedRows w p ->
  GetAndReplace ev name (Update_func path tmin tmax) m w = Some (r, m', w') ->
  storedRows w p `prefix_of` storedRows w' p /\
  deliveredOfBytes (default NoBytes (objects w' !! p)) = storedRows w' p.
Proof.
  intros Hev Hall Hcall. unfold storedRows in *. destruct r as [e|].
  - apply GetAndReplace_failure in Hcall as [_ [->|(other & -> & _)]]; [done|discriminate].
  - apply GetAndReplace_success in Hcall as (-> & _).
    destruct (decide (p = name)) as [->|Hp].
    + rewrite lookup_insert_eq. unfold reencoded. cbn [default id].
      rewrite objectOf_rows, objectOf_delivered, Hall. split; [|done]. by apply prefix_app_r.
    + by rewrite lookup_insert_ne.
Qed.

Lemma retryLoop_append_only rounds env path tmin tmax name p :
  (forall k, is_Overtaken (env k) = false) ->
  forall err m w,
    deliveredOfBytes (default NoBytes (objects w !! p)) = storedRows w p ->
    storedRows w p
      `prefix_of` storedRows (worldOf (retryLoop rounds env path tmin tmax name err m w)) p /\
    deliveredOfBytes
      (default NoBytes
         (objects (worldOf (retryLoop rounds env path tmin tmax name err m w)) !! p))
    = storedRows (worldOf (retryLoop rounds env path tmin tmax name err m w)) p.
Proof.
  intros Henv. induction rounds as [|rounds IH]; intros err m w Hall; cbn [retryLoop];
    destruct (Backoff_Ongoing (backoff m)); try done.
  destruct (GetAndReplace _ _ _ m w) as [[[[e|] m1] w1]|] eqn:Hcall; [| |done].
  - destruct (GetAndReplace_append_only _ _ _ _ _ _ _ _ _ _ p (Henv _) Hall Hcall)
      as [Hprefix Hall1].
    destruct (IH (Some e) (set_backoff m1 (Backoff_Wait (backoff m1)))
                (logAttempt w1 (name, Some e)) Hall1) as [Hrest Hall'].
    split; [|done]. etrans; [exact Hprefix|]. exact Hrest.
  - exact (GetAndReplace_append_only _ _ _ _ _ _ _ _ _ _ p (Henv _) Hall Hcall).
Qed.

Lemma forWindows_append_only rounds env path tmin tmax paths p :
  (forall k, is_Overtaken (env k) = false) ->
  forall err m w,
    deliveredOfBytes (default NoBytes (objects w !! p)) = storedRows w p ->
    storedRows w p
      `prefix_of` storedRows (worldOf (forWindows rounds env path tmin tmax paths err m w)) p.
Proof.
  intros Henv. induction paths as [|q paths IH]; intros err m w Hall; cbn [forWindows];
    [done|].
  destruct (retryLoop_append_only rounds env path tmin tmax q p Henv err
              (set_backoff m (Backoff_Reset (backoff m))) w Hall) as [Hloop Hall1].
  destruct (retryLoop _ _ _ _ _ q err _ w) as [err1 m1 w1| |]; [|done..].
  cbn [worldOf] in Hloop, Hall1. destruct (metastoreBuilder m1); [|done].
  etrans; [done|]. by apply IH.
Qed.

(** X8: Update only ever adds to a metastore object whose reads deliver
    every row it holds.  As long as no other writer replaces objects during
    the call, the rows such a window holds before the call are, in their
    order, the first rows it holds after it, however the call ends and
    whichever attempts fail. *)
Theorem Update_only_appends rounds env m w path tmin tmax p
    (Halone : forall k, is_Overtaken (env k) = false)
    (Hdelivered : deliveredOfBytes (default NoBytes (objects w !! p)) = storedRows w p) :
  storedRows w p `prefix_of` storedRows (worldOf (Update rounds env m w path tmin tmax)) p.
Proof.
  unfold Update. destruct (initBuilder m) as [[e|] m0]; [done|].
  by apply forWindows_append_only.
Qed.

End Runs.

Section Completion.

Context `{Collaborators}.

(** ** What a call that returns has done *)

Lemma iterStorePaths_NoDup tenant tmin tmax :
  (0 < metastoreWindowSize)%Z -> NoDup (iterStorePaths tenant tmin tmax).
Proof.
  intros Hsize. unfold iterStorePaths. destruct (_ <? _)%Z; [constructor|].
  by apply sorted_NoDup, windowsFrom_sorted.
Qed.

Lemma retryLoop_unbounded_returns rounds env path tmin tmax name :
  forall err m w err' m' w',
    ctx_Err (backoff m) = None -> MaxRetries (cfg (backoff m)) = 0 ->
    retryLoop rounds env path tmin tmax name err m w = Returns err' m' w' ->
    err' = None /\
    last (storedRows w' name) = Some (rowOfStream (registrationStream path tmin tmax)).
Proof.
  induction rounds as [|rounds IH]; intros err m w err' m' w' Hctx Hmax; cbn [retryLoop];
    rewrite unbounded_Ongoing by done; [discriminate|].
  destruct (GetAndReplace _ _ _ m w) as [[[[e|] m1] w1]|] eqn:Hcall; [| |discriminate].
  - apply GetAndReplace_frame in Hcall as (Hb & _).
    apply IH; cbn [set_backoff backoff Backoff_Wait ctx_Err cfg]; by rewrite Hb.
  - apply GetAndReplace_success in Hcall as (Hobjects & _).
    intros [= <- <- <-]. split; [done|].
    unfold storedRows. cbn [logAttempt objects]. rewrite Hobjects, lookup_insert_eq.
    unfold reencoded. cbn [default id]. by rewrite objectOf_rows, last_snoc.
Qed.

Lemma forWindows_unbounded_returns rounds env path tmin tmax paths :
  forall err m w err' m' w',
    NoDup paths ->
    ctx_Err (backoff m) = None -> MaxRetries (cfg (backoff m)) = 0 ->
    forWindows rounds env path tmin tmax paths err m w = Returns err' m' w' ->
    (err' = None \/ paths = [] /\ err' = err) /\
    forall p, p ∈ paths ->
      last (storedRows w' p) = Some (rowOfStream (registrationStream path tmin tmax)).
Proof.
  induction paths as [|p paths IH]; intros err m w err' m' w' Hnodup Hctx Hmax;
    cbn [forWindows].
  { intros [= <- <- <-]. split; [by right|]. by intros p ?%elem_of_nil. }
  apply NoDup_cons in Hnodup as [Hp Hnodup].
  destruct (retryLoop _ _ _ _ _ p err _ w) as [err1 m1 w1| |] eqn:Hloop; [|discriminate..].
  pose proof (retryLoop_frame _ _ _ _ _ _ _ _ _ _ _ _ Hloop) as (Hc & Hx & _).
  apply retryLoop_unbounded_returns in Hloop as [-> Hlast]; [|done..].
  cbn [set_backoff backoff Backoff_Reset cfg ctx_Err] in Hc, Hx.
  destruct (metastoreBuilder m1) as [b|]; [|discriminate].
  intros Hrest.
  pose proof (forWindows_elsewhere rounds env path tmin tmax paths p None
                (set_builder m1 (Builder_Reset b)) w1 Hp) as Hkeep.
  rewrite Hrest in Hkeep. cbn [worldOf] in Hkeep.
  apply IH in Hrest as [Herr Hall]; [|done|cbn [set_builder backoff]; congruence..].
  split.
  - left. by destruct Herr as [->|[_ ->]].
  - intros q [->|Hq]%elem_of_cons; [|by apply Hall].
    unfold storedRows in *. by rewrite Hkeep.
Qed.

(** X9: with the backoff NewUpdater configures (no retry bound, a context
    that is never done), a call of Update that returns after its
    initialisation succeeded returns nil, and every window of the range then
    has the new registration as the last row of its object, whichever
    attempts failed on the way and whatever other writers did to the windows
    while they were being retried. *)
Theorem Update_returned_means_registered rounds env m w path tmin tmax err m' w'
    (Hinit : (initBuilder m).1 = None)
    (Hctx : ctx_Err (backoff m) = None)
    (Hmax : MaxRetries (cfg (backoff m)) = 0)
    (Hsize : (0 < metastoreWindowSize)%Z)
    (Hret : Update rounds env m w path tmin tmax = Returns err m' w') :
  err = None /\
  forall p, p ∈ iterStorePaths (tenantID m) tmin tmax ->
    last (storedRows w' p) = Some (rowOfStream (registrationStream path tmin tmax)).
Proof.
  unfold Update in Hret.
  destruct (initBuilder m) as [init m0] eqn:Hm0. cbn [fst] in Hinit. subst init.
  apply initBuilder_frame in Hm0 as [Hb Ht]. rewrite Ht in Hret.
  apply forWindows_unbounded_returns in Hret as [Herr Hall];
    [|by apply iterStorePaths_NoDup|by rewrite Hb..].
  split; [|done]. by destruct Herr as [->|[_ ->]].
Qed.

(** ** A bucket that does not interfere *)

Lemma retryLoop_quiet rounds env path tmin tmax name err m w
    (Hm : constructed m)
    (Hongoing : Backoff_Ongoing (backoff m) = true)
    (Hdone : ctx_done w = false)
    (Hquiet : env (length (attempts w)) = Quiet)
    (Hreadable : readableBytes (default NoBytes (objects w !! name)) = true)
    (Haccept : forall b s, Append_check b s = None)
    (Hflush : forall b, Flush_check b = None) :
  exists m1 w1,
    retryLoop (S rounds) env path tmin tmax name err m w = Returns None m1 w1 /\
    constructed m1 /\ backoff m1 = backoff m /\
    objects w1 = <[name := merged (default NoBytes (objects w !! name))
                             (registrationStream path tmin tmax)]> (objects w) /\
    attempts w1 = (name, None) :: attempts w /\ ctx_done w1 = false.
Proof.
  destruct (Update_func_returns_Ok path tmin tmax m
              ((fun b => {| content := b; read_err := None |}) <$> objects w !! name)
              (default NoBytes (objects w !! name)))
    as (replacement & m1 & Hrun); [done|by destruct (objects w !! name)|done..|].
  assert (Hm1 : constructed m1).
  { destruct (Update_func_constructed path tmin tmax m
                ((fun b => {| content := b; read_err := None |}) <$> objects w !! name) Hm)
      as (r & m2 & Hrun' & Hm2). by simplify_eq. }
  assert (exists w1, GetAndReplace (env (length (attempts w))) name
                       (Update_func path tmin tmax) m w = Some (None, m1, w1))
    as [w1 Hcall].
  { unfold GetAndReplace. rewrite Hquiet, Hdone. cbn [orb objects body_err].
    rewrite Hrun. by eexists. }
  exists m1, (logAttempt w1 (name, None)).
  split; [by apply retryLoop_succeeds_at_once|].
  pose proof (GetAndReplace_frame _ _ _ _ _ _ _ _ _ _ Hcall) as (Hb & _).
  apply GetAndReplace_success in Hcall as (Hobjects & Hlog & _ & Hdone1).
  rewrite readableBytes_reencoded in Hobjects by done.
  cbn [logAttempt objects attempts ctx_done]. by rewrite Hlog.
Qed.

Lemma forWindows_quiet rounds env path tmin tmax paths :
  forall err m w,
    NoDup paths ->
    constructed m ->
    ctx_Err (backoff m) = None ->
    ctx_done w = false ->
    (forall k, env k = Quiet) ->
    (forall p, p ∈ paths -> readableBytes (default NoBytes (objects w !! p)) = true) ->
    (forall b s, Append_check b s = None) ->
    (forall b, Flush_check b = None) ->
    exists err' m' w',
      forWindows (S rounds) env path tmin tmax paths err m w = Returns err' m' w' /\
      (err' = None \/ paths = [] /\ err' = err) /\
      attempts w' = reverse (map (fun p => (p, None)) paths) ++ attempts w /\
      forall p, p ∈ paths ->
        storedRows w' p
          = storedRows w p ++ [rowOfStream (registrationStream path tmin tmax)].
Proof.
  induction paths as [|p paths IH];
    intros err m w Hnodup Hm Hctx Hdone Hquiet Hreadable Haccept Hflush.
  { exists err, m, w. split; [done|]. split; [by right|]. split; [done|].
    by intros p ?%elem_of_nil. }
  apply NoDup_cons in Hnodup as [Hp Hnodup]. cbn [forWindows].
  destruct (retryLoop_quiet rounds env path tmin tmax p err
              (set_backoff m (Backoff_Reset (backoff m))) w)
    as (m1 & w1 & -> & [[b Hb] Hbuf] & Hbackoff & Hobjects & Hlog & Hdone1);
    [done|by apply Backoff_Reset_Ongoing|done|done|apply Hreadable; by left|done..|].
  rewrite Hb.
  destruct (IH None (set_builder m1 (Builder_Reset b)) w1)
    as (err' & m' & w' & Hrest & Herr & Hlog' & Hrows); [done| | |done|done| |done..|].
  { split; [by eexists|done]. }
  { cbn [set_builder backoff]. by rewrite Hbackoff. }
  { intros q Hq. rewrite Hobjects, lookup_insert_ne; [|by intros ->].
    apply Hreadable. by right. }
  pose proof (forWindows_elsewhere (S rounds) env path tmin tmax paths p None
                (set_builder m1 (Builder_Reset b)) w1 Hp) as Hkeep.
  rewrite Hrest in *. cbn [worldOf] in Hkeep.
  exists err', m', w'. split; [done|]. split; [|split].
  - left. by destruct Herr as [->|[_ ->]].
  - rewrite Hlog', Hlog. cbn [map]. by rewrite reverse_cons, <- app_assoc.
  - intros q [->|Hq]%elem_of_cons.
    + unfold storedRows. rewrite Hkeep, Hobjects, lookup_insert_eq.
      unfold merged. cbn [default id]. by rewrite objectOf_rows.
    + rewrite Hrows by done. unfold storedRows.
      rewrite Hobjects, lookup_insert_ne; [done|by intros ->].
Qed.

(** X10: on a bucket that does not interfere, with objects that can be read
    and a builder that refuses nothing, Update makes exactly one attempt per
    window, in the planner's order, returns nil, and every window of the range
    holds the rows it held before followed by the new registration. *)
Theorem Update_on_quiet_bucket rounds env m w path tmin tmax
    (Hm : builderOnce m = false \/ constructed m)
    (Hinit : (initBuilder m).1 = None)
    (Hctx : ctx_Err (backoff m) = None)
    (Hdone : ctx_done w = false)
    (Hquiet : forall k, env k = Quiet)
    (Hreadable : forall p, p ∈ iterStorePaths (tenantID m) tmin tmax ->
                   readableBytes (default NoBytes (objects w !! p)) = true)
    (Haccept : forall b s, Append_check b s = None)
    (Hflush : forall b, Flush_check b = None)
    (Hsize : (0 < metastoreWindowSize)%Z) :
  exists m' w',
    Update (S rounds) env m w path tmin tmax = Returns None m' w' /\
    attempts w' =
      reverse (map (fun p => (p, None)) (iterStorePaths (tenantID m) tmin tmax))
        ++ attempts w /\
    forall p, p ∈ iterStorePaths (tenantID m) tmin tmax ->
      storedRows w' p = storedRows w p ++ [rowOfStream (registrationStream path tmin tmax)].
Proof.
  destruct (initBuilder_cases m Hm) as (Hb & Ht & Hconstructed). unfold Update.
  destruct (initBuilder m) as [init m0]. cbn [fst snd] in *. subst init. rewrite Ht.
  destruct (forWindows_quiet rounds env path tmin tmax
              (iterStorePaths (tenantID m) tmin tmax) None m0 w)
    as (err' & m' & w' & -> & Herr & Hlog & Hrows);
    [by apply iterStorePaths_NoDup|by apply Hconstructed|by rewrite Hb|done..|].
  exists m', w'. split; [|done]. by destruct Herr as [->|[_ ->]].
Qed.

End Completion.

Section OffsetMetricsProofs.

Context {R : Type} `{Registerer R}.

(** ** register and unregister of the partition offset metrics *)

Lemma registerEach_stops collectors : forall reg reg' e,
  registerEach collectors reg = (reg', Some e) ->
  exists before collector after reg0,
    collectors = before ++ collector :: after /\
    registerEach before reg = (reg0, None) /\
    Register reg0 collector = (reg', Some e) /\
    e <> AlreadyRegisteredError.
Proof.
  induction collectors as [|c collectors IH]; intros reg reg' e; cbn [registerEach];
    [discriminate|].
  destruct (Register reg c) as [reg1 [[|msg]|]] eqn:Hc.
  1,3: intros (before & collector & after & reg0 & -> & Hbefore & Hcall & He)%IH;
       exists (c :: before), collector, after, reg0;
       cbn [registerEach app]; rewrite Hc; by repeat split.
  intros [= <- <-]. exists [], c, collectors, reg. by repeat split.
Qed.

(** X11: register never reports an AlreadyRegisteredError.  When it returns
    an error, that error is what Register answered for one of the five
    collectors, the collectors before it in the slice were taken (registered
    or found registered), those after it were not offered, and the registry
    is left as that failing Register call left it. *)
Theorem register_stops_at_foreign_error reg reg' e
    (Hrun : register reg = (reg', Some e)) :
  e <> AlreadyRegisteredError /\
  exists before collector after reg0,
    offsetCollectors = before ++ collector :: after /\
    registerEach before reg = (reg0, None) /\
    Register reg0 collector = (reg', Some e).
Proof.
  apply registerEach_stops in Hrun
    as (before & collector & after & reg0 & Hsplit & Hbefore & Hcall & He).
  split; [done|]. by exists before, collector, after, reg0.
Qed.

(** What a registry holds, and the behaviour of a registry that keeps a set
    of collectors: Register of a collector it holds answers
    AlreadyRegisteredError and changes nothing, a Register that is taken adds
    that collector and no other, Unregister removes that collector and no
    other. *)
Variable holds : R -> Collector -> Prop.

Hypothesis Register_held : forall reg c,
  holds reg c -> Register reg c = (reg, Some AlreadyRegisteredError).

Hypothesis Register_taken : forall reg c reg',
  Register reg c = (reg', None) \/ Register reg c = (reg', Some AlreadyRegisteredError) ->
  forall c', holds reg' c' <-> holds reg c' \/ c' = c.

Hypothesis Unregister_removes : forall reg c c',
  holds (Unregister reg c).1 c' <-> holds reg c' /\ c' <> c.

Lemma registerEach_holds collectors : forall reg reg',
  registerEach collectors reg = (reg', None) ->
  forall c', holds reg' c' <-> holds reg c' \/ c' ∈ collectors.
Proof.
  induction collectors as [|c collectors IH]; intros reg reg'; cbn [registerEach].
  { intros [= <-] c'. rewrite elem_of_nil. tauto. }
  destruct (Register reg c) as [reg1 [[|msg]|]] eqn:Hc; [| discriminate |];
    intros Hrest c'; rewrite (IH _ _ Hrest c'), elem_of_cons;
    rewrite (Register_taken reg c reg1) by tauto; tauto.
Qed.

Lemma registerEach_held collectors : forall reg,
  (forall c, c ∈ collectors -> holds reg c) ->
  registerEach collectors reg = (reg, None).
Proof.
  induction collectors as [|c collectors IH]; intros reg Hall; [done|].
  cbn [registerEach]. rewrite Register_held by (apply Hall; by left).
  apply IH. intros c' Hc'. apply Hall. by right.
Qed.

(** X12: on a registry that keeps a set of collectors, register can be run
    again: after a call that returned nil the registry holds the five
    collectors of the slice, and a second call returns nil and leaves the
    registry as it is. *)
Theorem register_again reg reg'
    (Hrun : register reg = (reg', None)) :
  (forall c, c ∈ offsetCollectors -> holds reg' c) /\
  register reg' = (reg', None).
Proof.
  assert (Hall : forall c, c ∈ offsetCollectors -> holds reg' c).
  { intros c Hc. apply (registerEach_holds _ _ _ Hrun). by right. }
  split; [done|]. by apply registerEach_held.
Qed.

Lemma unregisterEach_holds collectors : forall reg c',
  holds (unregisterEach collectors reg) c' <-> holds reg c' /\ c' ∉ collectors.
Proof.
  induction collectors as [|c collectors IH]; intros reg c'; cbn [unregisterEach].
  { rewrite elem_of_nil. tauto. }
  rewrite IH, Unregister_removes, not_elem_of_cons. tauto.
Qed.

(** X13: on a registry that keeps a set of collectors, unregister takes
    back what register put in: after register returned nil and unregister
    ran, the registry holds what it held before apart from the five
    collectors of the slice, none of which it holds. *)
Theorem unregister_after_register reg reg' c
    (Hrun : register reg = (reg', None)) :
  holds (unregister reg') c <-> holds reg c /\ c ∉ offsetCollectors.
Proof.
  unfold unregister. rewrite unregisterEach_holds, (registerEach_holds _ _ _ Hrun). tauto.
Qed.

End OffsetMetricsProofs.

(** * Scenarios for the further properties *)

Lemma sameCollector_eq c c' : sameCollector c c' = true <-> c = c'.
Proof. destruct c, c'; by split. Qed.

Lemma hasCollector_cons reg c c' :
  hasCollector (c :: reg) c' = true <-> hasCollector reg c' = true \/ c' = c.
Proof.
  unfold hasCollector. cbn [existsb]. rewrite orb_true_iff, sameCollector_eq. tauto.
Qed.

Lemma listRegistry_held (reg : list Collector) c :
  hasCollector reg c = true ->
  @Register _ listRegistry reg c = (reg, Some AlreadyRegisteredError).
Proof. cbn. by intros ->. Qed.

Lemma listRegistry_taken (reg : list Collector) c reg' :
  @Register _ listRegistry reg c = (reg', None) \/
  @Register _ listRegistry reg c = (reg', Some AlreadyRegisteredError) ->
  forall c', hasCollector reg' c' = true <-> hasCollector reg c' = true \/ c' = c.
Proof.
  cbn. destruct (hasCollector reg c) eqn:Hc; intros [Heq|Heq] c'; simplify_eq.
  - split; [by left|]. by intros [ | -> ].
  - apply hasCollector_cons.
Qed.

Lemma hasCollector_filter (reg : list Collector) c c' :
  hasCollector (List.filter (fun x => negb (sameCollector c x)) reg) c' = true <->
  hasCollector reg c' = true /\ c' <> c.
Proof.
  induction reg as [|x reg IH]; cbn [List.filter].
  { split; [done|by intros [? _]]. }
  destruct (sameCollector c x) eqn:Hx; cbn [negb].
  - apply sameCollector_eq in Hx as <-. rewrite IH, hasCollector_cons. tauto.
  - assert (c <> x) by (intros Heq; apply sameCollector_eq in Heq; congruence).
    rewrite !hasCollector_cons, IH.
    split; [intros [[? ?]| ->]; split; auto|tauto].
Qed.

Lemma listRegistry_removes (reg : list Collector) c c' :
  hasCollector (@Unregister _ listRegistry reg c).1 c' = true <->
  hasCollector reg c' = true /\ c' <> c.
Proof. apply hasCollector_filter. Qed.

Lemma readFromExisting_is_appendStreams_witness :
  forallb readableSection threeSections = true /\
  @readFromExisting hourly threeSections emptyBuilder
    = @appendStreams hourly (rowsOf threeSections) emptyBuilder.
Proof.
  split; [reflexivity|].
  apply (@readFromExisting_is_appendStreams hourly threeSections emptyBuilder).
  reflexivity.
Defined.

Lemma Update_func_succeeds_witness :
  exists m',
    @Update_func hourly "obj-2" (50 * Minute)%Z (80 * Minute)%Z (readyUpdater "t1" 0)
      (Some {| content := Encoded threeSections; read_err := None |})
    = Some (Ok (merged (Encoded threeSections)
                  (@registrationStream hourly "obj-2" (50 * Minute)%Z (80 * Minute)%Z)), m')
    /\ constructed m'.
Proof.
  apply (@Update_func_succeeds hourly "obj-2" (50 * Minute)%Z (80 * Minute)%Z
           (readyUpdater "t1" 0)
           (Some {| content := Encoded threeSections; read_err := None |})
           (Encoded threeSections)).
  - split; by eexists.
  - reflexivity.
  - reflexivity.
  - reflexivity.
  - reflexivity.
Defined.

Lemma Update_func_submits_delivered_witness :
  exists replacement m',
    @Update_func hourly "obj-3" (20 * Minute)%Z (30 * Minute)%Z (readyUpdater "t1" 0)
      (Some {| content := Encoded tornObject; read_err := None |})
    = Some (Ok replacement, m') /\
    length (rowsOfBytes replacement) <= S (length (rowsOf tornObject)).
Proof.
  eexists _, _. split; [vm_compute; reflexivity|].
  edestruct (@Update_func_submits_delivered hourly "obj-3" (20 * Minute)%Z (30 * Minute)%Z
               (readyUpdater "t1" 0)
               (Some {| content := Encoded tornObject; read_err := None |}))
    as (copied & Hcopy & _ & _ & Hlen & _); [vm_compute; reflexivity|].
  injection Hcopy as <-. exact Hlen.
Defined.

Lemma Update_does_not_panic_witness :
  constructed (readyUpdater "t1" 2) /\
  match twoWindowRun with
  | Panics _ => False
  | Returns err m' _ =>
      constructed m' \/ err = (@initBuilder hourly (readyUpdater "t1" 2)).1 /\ err <> None
  | Spins m' _ => constructed m'
  end.
Proof.
  assert (Hm : constructed (readyUpdater "t1" 2)) by (split; by eexists).
  split; [done|].
  apply (@Update_does_not_panic hourly 3 (downAtFirst 2) (readyUpdater "t1" 2) emptyWorld
           "obj-2" (50 * Minute)%Z (80 * Minute)%Z).
  by right.
Defined.

Lemma Update_returns_when_bounded_witness :
  exists err m' w' new,
    twoWindowRun = Returns err m' w' /\
    attempts w' = new ++ attempts emptyWorld /\
    length new <= 2 * 2.
Proof.
  apply (@Update_returns_when_bounded hourly 3 (downAtFirst 2) (readyUpdater "t1" 2)
           emptyWorld "obj-2" (50 * Minute)%Z (80 * Minute)%Z).
  - right. split; by eexists.
  - cbn. lia.
  - cbn. lia.
Defined.

Lemma Update_touches_only_its_windows_witness :
  objects (worldOf twoWindowRun) !! ("t2", 0%Z) = objects emptyWorld !! ("t2", 0%Z).
Proof.
  apply (@Update_touches_only_its_windows hourly 3 (downAtFirst 2) (readyUpdater "t1" 2)
           emptyWorld "obj-2" (50 * Minute)%Z (80 * Minute)%Z ("t2", 0%Z)).
  right. discriminate.
Defined.

Lemma Update_only_appends_witness :
  deliveredOfBytes (default NoBytes (objects registeredWorld !! window0))
    = storedRows registeredWorld window0 /\
  storedRows registeredWorld window0
    `prefix_of`
    storedRows
      (worldOf (@Update hourly 3 (downAtFirst 1) (NewUpdater "t1") registeredWorld
                  "obj-2" (50 * Minute)%Z (80 * Minute)%Z))
      window0.
Proof.
  split; [reflexivity|].
  apply (@Update_only_appends hourly 3 (downAtFirst 1) (NewUpdater "t1")
           registeredWorld "obj-2" (50 * Minute)%Z (80 * Minute)%Z window0).
  - intros k. unfold downAtFirst. by destruct (k <? 1)%nat.
  - reflexivity.
Defined.

Lemma Update_returned_means_registered_witness :
  retriedRun = Returns None (updaterOf retriedRun) (worldOf retriedRun) /\
  forall p, p ∈ @iterStorePaths hourly "t1" (50 * Minute)%Z (80 * Minute)%Z ->
    last (storedRows (worldOf retriedRun) p)
      = Some (rowOfStream (@registrationStream hourly "obj-2" (50 * Minute)%Z (80 * Minute)%Z)).
Proof.
  split; [vm_compute; reflexivity|].
  eapply proj2,
    (@Update_returned_means_registered hourly 3 (downAtFirst 1) (readyUpdater "t1" 0)
       emptyWorld "obj-2" (50 * Minute)%Z (80 * Minute)%Z None
       (updaterOf retriedRun) (worldOf retriedRun));
    vm_compute; reflexivity.
Defined.

Lemma Update_on_quiet_bucket_witness :
  exists m' w',
    quietRun = Returns None m' w' /\
    attempts w' = reverse (map (fun p => (p, None)) [window0; window1])
                    ++ attempts emptyWorld /\
    forall p, p ∈ [window0; window1] ->
      storedRows w' p
        = storedRows emptyWorld p
            ++ [rowOfStream (@registrationStream hourly "obj-2" (50 * Minute)%Z (80 * Minute)%Z)].
Proof.
  apply (@Update_on_quiet_bucket hourly 0 (fun _ => Quiet) (readyUpdater "t1" 0)
           emptyWorld "obj-2" (50 * Minute)%Z (80 * Minute)%Z).
  - right. split; by eexists.
  - reflexivity.
  - reflexivity.
  - reflexivity.
  - reflexivity.
  - intros p _. reflexivity.
  - reflexivity.
  - reflexivity.
  - reflexivity.
Defined.

Lemma retryLoop_gives_up_witness :
  exists m' w',
    @retryLoop hourly 2 storeDown "obj-2" (50 * Minute)%Z (80 * Minute)%Z window0
      None (readyUpdater "t1" 2) emptyWorld
    = Returns (Some (Err "bucket unavailable")) m' w' /\
    objects w' = objects emptyWorld /\
    attempts w' = replicate 2 (window0, Some (Err "bucket unavailable")) ++ attempts emptyWorld.
Proof.
  apply (@retryLoop_gives_up hourly 2 storeDown "obj-2" (50 * Minute)%Z (80 * Minute)%Z
           window0 (Err "bucket unavailable") None (readyUpdater "t1" 2) emptyWorld).
  - reflexivity.
  - cbn. lia.
  - cbn. lia.
  - reflexivity.
  - reflexivity.
Defined.

Lemma register_stops_at_foreign_error_witness :
  @register _ pickyRegistry [] =
    ([currentOffset; appendFailures; commitFailures],
     Some (OtherRegisterError "descriptor rejected")) /\
  OtherRegisterError "descriptor rejected" <> AlreadyRegisteredError.
Proof.
  split; [reflexivity|].
  eapply proj1,
    (@register_stops_at_foreign_error _ pickyRegistry []
       [currentOffset; appendFailures; commitFailures]).
  reflexivity.
Defined.

Lemma register_again_witness :
  @register _ listRegistry [commitFailures] =
    ([bytesProcessed; processingDelay; currentOffset; appendFailures; commitFailures], None) /\
  @register _ listRegistry
     [bytesProcessed; processingDelay; currentOffset; appendFailures; commitFailures]
   = ([bytesProcessed; processingDelay; currentOffset; appendFailures; commitFailures], None).
Proof.
  split; [reflexivity|].
  eapply proj2,
    (@register_again _ listRegistry (fun reg c => hasCollector reg c = true)
       listRegistry_held listRegistry_taken [commitFailures]).
  reflexivity.
Defined.

Lemma unregister_after_register_witness :
  hasCollector
    (@unregister _ listRegistry
       [bytesProcessed; processingDelay; currentOffset; appendFailures; commitFailures;
        appendsTotal])
    appendsTotal = true
  <-> hasCollector [appendsTotal] appendsTotal = true /\ appendsTotal ∉ offsetCollectors.
Proof.
  apply (@unregister_after_register _ listRegistry (fun reg c => hasCollector reg c = true)
           listRegistry_taken listRegistry_removes [appendsTotal]).
  reflexivity.
Defined.
